(** * seqan3: tag-indexed records and capability-gated strong types

    A shallow embedding of
    - [include/seqan3/io/record.hpp]: the [field] enumeration, the
      compile-time tag list [fields<fs...>] and the tuple-like [record];
    - [include/seqan3/core/detail/strong_type.hpp]: the CRTP wrapper
      [strong_type<value_t, derived_t, skills_>].

    Template parameters become section variables.  [size_t] values are
    integers in [Z] with the 64-bit wrap-around written out.  Code that is
    evaluated by the compiler ([static_assert], [requires]) is modelled by
    the boolean it computes. *)

From stdpp Require Import base numbers option list gmap.
From Stdlib Require Import ZArith Lia PrimFloat.

Local Open Scope Z_scope.

(* ===================================================================== *)
(** ** [enum class field]                                                 *)
(* ===================================================================== *)

Module field.

Inductive t : Set :=
| seq | id | qual
| offset
| bpp | structure | structured_seq | energy | react | react_err | comment
| alignment | ref_id | ref_seq | ref_offset | header_ptr
| flag | mate | mapq | cigar | tags
| bit_score | evalue
| user_defined_0 | user_defined_1 | user_defined_2 | user_defined_3
| user_defined_4 | user_defined_5 | user_defined_6 | user_defined_7
| user_defined_8 | user_defined_9.

(** The enumerators carry no initialiser: they are numbered from zero in
    declaration order. *)
Definition to_underlying (f : t) : Z :=
  match f with
  | seq => 0 | id => 1 | qual => 2
  | offset => 3
  | bpp => 4 | structure => 5 | structured_seq => 6 | energy => 7
  | react => 8 | react_err => 9 | comment => 10
  | alignment => 11 | ref_id => 12 | ref_seq => 13 | ref_offset => 14
  | header_ptr => 15
  | flag => 16 | mate => 17 | mapq => 18 | cigar => 19 | tags => 20
  | bit_score => 21 | evalue => 22
  | user_defined_0 => 23 | user_defined_1 => 24 | user_defined_2 => 25
  | user_defined_3 => 26 | user_defined_4 => 27 | user_defined_5 => 28
  | user_defined_6 => 29 | user_defined_7 => 30 | user_defined_8 => 31
  | user_defined_9 => 32
  end.

(** The built-in [==] of a scoped enumeration compares the underlying
    values. *)
Definition eqb (a b : t) : bool := to_underlying a =? to_underlying b.

#[global] Instance eq_dec : EqDecision t.
Proof. solve_decision. Defined.

End field.

(* ===================================================================== *)
(** ** [size_t]                                                           *)
(* ===================================================================== *)

Definition size_t_modulus : Z := 2 ^ 64.

(** [std::numeric_limits<size_t>::max()] *)
Definition size_t_max : Z := size_t_modulus - 1.

(** [++i] on a [size_t]. *)
Definition size_t_succ (i : Z) : Z := (i + 1) mod size_t_modulus.

(** What a [return] inside a loop body does to the enclosing function. *)
Inductive flow (A : Type) : Type :=
| Return (a : A)
| Fallthrough.
Arguments Return {A} a.
Arguments Fallthrough {A}.

(* ===================================================================== *)
(** ** [template <field ...fs> struct fields]                             *)
(* ===================================================================== *)

Module fields.
Section fields.

(** The template parameter pack. *)
Variable fs : list field.t.

(** [static constexpr std::array<field, sizeof...(fs)> as_array{fs...};] *)
Definition as_array : list field.t := fs.

(** [static constexpr size_t npos = std::numeric_limits<size_t>::max();] *)
Definition npos : Z := size_t_max.

(** [static constexpr size_t size = sizeof...(fs);] *)
Definition size : Z := Z.of_nat (length fs).

(** The loop of [index_of], entered with counter [i].  [None] stands for
    a computation without a result: the iteration budget [fuel] is used
    up, or the array is read out of bounds. *)
Fixpoint index_of_loop (fuel : nat) (i : Z) (f : field.t) : option Z :=
  match fuel with
  | O => None
  | S fuel' =>
      if i <? size then
        match as_array !! Z.to_nat i with
        | Some x =>
            if field.eqb x f then Some i
            else index_of_loop fuel' (size_t_succ i) f
        | None => None
        end
      else Some npos
  end.

(** [static constexpr size_t index_of(field f)] *)
Definition index_of (f : field.t) : option Z :=
  index_of_loop (S (length fs)) 0 f.

(** [static constexpr bool contains(field f)] *)
Definition contains (f : field.t) : option bool :=
  idx ← index_of f; Some (negb (idx =? npos)).

(** The inner loop of the lambda in the [static_assert], entered with
    counter [j]. *)
Fixpoint unique_inner_loop (fuel : nat) (i j : Z) : option (flow bool) :=
  match fuel with
  | O => None
  | S fuel' =>
      if j <? size then
        match as_array !! Z.to_nat i, as_array !! Z.to_nat j with
        | Some x, Some y =>
            if field.eqb x y then Some (Return false)
            else unique_inner_loop fuel' i (size_t_succ j)
        | _, _ => None
        end
      else Some Fallthrough
  end.

(** The outer loop of the lambda, entered with counter [i]; after it the
    lambda returns [true]. *)
Fixpoint unique_outer_loop (fuel : nat) (i : Z) : option bool :=
  match fuel with
  | O => None
  | S fuel' =>
      if i <? size then
        match unique_inner_loop (S (length fs)) i (size_t_succ i) with
        | Some (Return b) => Some b
        | Some Fallthrough => unique_outer_loop fuel' (size_t_succ i)
        | None => None
        end
      else Some true
  end.

(** The condition of
    [static_assert(..., "You may not include a field twice into fields<>.")]. *)
Definition static_assert_condition : option bool :=
  unique_outer_loop (S (length fs)) 0.

(** Instantiating [fields<fs...>] succeeds when the assertion holds. *)
Definition accepted : bool :=
  match static_assert_condition with
  | Some true => true
  | _ => false
  end.

End fields.
End fields.

(* ===================================================================== *)
(** ** Element types of a record                                           *)
(* ===================================================================== *)

(** What [record] uses of an element type [t]: its values, the value
    [t{}] that [v = {}] assigns, and the member [clear()] when the
    requirement [requires (t & v) { v.clear(); }] is satisfied; the
    member maps the value before the call to the value after it. *)
Record element_type : Type := {
  carrier : Type;
  value_initialized : carrier;
  member_clear : option (carrier → carrier)
}.

(** A value together with its type. *)
Definition any : Type := { t : element_type & carrier t }.

(** A reference to a sub-object of type [A] inside an object of type [S]:
    reading through it and assigning through it. *)
Record reference (S A : Type) : Type := {
  load : S → A;
  store : A → S → S
}.
Arguments load {S A} _ _.
Arguments store {S A} _ _ _.

(** [std::tuple<ts...>] *)
Fixpoint tuple (ts : list element_type) : Type :=
  match ts with
  | [] => unit
  | t :: ts' => (carrier t * tuple ts')%type
  end.

(** [std::tuple_element_t<i, std::tuple<ts...>>]; past the end there is no
    such type and the placeholder [unit] is never reached by [std_get]. *)
Fixpoint tuple_element (i : nat) (ts : list element_type) {struct ts} : Type :=
  match ts with
  | [] => unit
  | t :: ts' =>
      match i with
      | O => carrier t
      | S i' => tuple_element i' ts'
      end
  end.

(** [std::get<i>(tuple)]: a reference to the [i]-th element; ill-formed
    ([None]) when [i] is not below the tuple's size. *)
Fixpoint std_get (ts : list element_type) (i : nat)
  : option (reference (tuple ts) (tuple_element i ts)) :=
  match ts with
  | [] => None
  | t :: ts' =>
      match i with
      | O => Some {| load := fst; store := λ v r, (v, snd r) |}
      | S i' =>
          ref ← std_get ts' i';
          Some {| load := λ r, load ref (snd r);
                  store := λ v r, (fst r, store ref v (snd r)) |}
      end
  end.

(** The [i]-th element of a tuple together with its type. *)
Fixpoint element_at (ts : list element_type) (i : nat)
  : tuple ts → option any :=
  match ts with
  | [] => λ _, None
  | t :: ts' => λ r,
      match i with
      | O => Some (existT t (fst r))
      | S i' => element_at ts' i' (snd r)
      end
  end.

(** The default constructor of [std::tuple] value-initialises every
    element. *)
Fixpoint tuple_default (ts : list element_type) : tuple ts :=
  match ts with
  | [] => tt
  | t :: ts' => (value_initialized t, tuple_default ts')
  end.

(* ===================================================================== *)
(** ** [template <typename field_types, typename field_ids> struct record] *)
(* ===================================================================== *)

Module record.

(** The two function templates named [clear_element]. *)
Inductive overload : Set :=
| clear_element_member    (* requires requires (t & v) { v.clear(); } *)
| clear_element_assign.   (* unconstrained *)

(** Whether an overload takes part in overload resolution for an
    argument of type [t]. *)
Definition viable (t : element_type) (o : overload) : bool :=
  match o with
  | clear_element_member => bool_decide (is_Some (member_clear t))
  | clear_element_assign => true
  end.

(** Both templates have the parameter list [(t & v)]; of two viable
    candidates the constrained one is the more constrained and wins. *)
Definition resolve (t : element_type) : overload :=
  if viable t clear_element_member then clear_element_member
  else clear_element_assign.

(** The bodies: [v.clear();] and [v = {};]. *)
Definition body (o : overload) (t : element_type) (v : carrier t)
  : carrier t :=
  match o with
  | clear_element_member =>
      match member_clear t with
      | Some clear => clear v
      | None => v
      end
  | clear_element_assign => value_initialized t
  end.

(** A call [clear_element(v)] with [v] of type [t]. *)
Definition clear_element (t : element_type) (v : carrier t) : carrier t :=
  body (resolve t) t v.

(** [expander]: [(clear_element(args), ...)] over the elements. *)
Fixpoint expander (ts : list element_type) : tuple ts → tuple ts :=
  match ts with
  | [] => λ r, r
  | t :: ts' => λ r, (clear_element t (fst r), expander ts' (snd r))
  end.

Section record.

(** The template parameters: [field_types] as the list of its types,
    [field_ids] as the pack of a [fields<...>]. *)
Variable field_types : list element_type.
Variable field_ids : list field.t.

(** [static_assert(field_types::size() == field_ids::as_array.size(), ...)] *)
Definition static_assert_condition : bool :=
  Z.of_nat (length field_types) =? fields.size field_ids.

(** [void clear()]: [std::apply(expander, *this)]. *)
Definition clear (this : tuple field_types) : tuple field_types :=
  expander field_types this.

(** [get_impl(field_constant<f>, record_as_tuple)]: [None] when the call
    is ill-formed or has no result.  It is a member of [record], so it
    exists only where the [static_assert] of the class on the two sizes
    holds; its own [static_assert] is on [contains]; [std::get] must not
    be instantiated past the end. *)
Definition get_impl (f : field.t)
  : option { i : nat &
             reference (tuple field_types) (tuple_element i field_types) } :=
  if static_assert_condition then
    present ← fields.contains field_ids f;
    if present : bool then
      idx ← fields.index_of field_ids f;
      ref ← std_get field_types (Z.to_nat idx);
      Some (existT (Z.to_nat idx) ref)
    else None
  else None.

(** Reading the field [f] of a record: the position it resolves to and
    the element found there. *)
Definition read (f : field.t) (r : tuple field_types)
  : option { i : nat & tuple_element i field_types } :=
  '(existT i ref) ← get_impl f;
  Some (existT i (load ref r)).

(** Assigning to the field [f] of a record.  The type of the assigned
    value is that of the position the tag resolves to, so the value is
    supplied per position. *)
Definition write (f : field.t)
    (vals : ∀ i, tuple_element i field_types) (r : tuple field_types)
  : option (tuple field_types) :=
  '(existT i ref) ← get_impl f;
  Some (store ref (vals i) r).

(** Assigning to the fields [l], one after the other, the values [vals]
    that are given for each tag. *)
Fixpoint write_all (l : list field.t)
    (vals : field.t → ∀ i, tuple_element i field_types)
    (r : tuple field_types)
  : option (tuple field_types) :=
  match l with
  | [] => Some r
  | f :: l' => r' ← write f (vals f) r; write_all l' vals r'
  end.

End record.
End record.

(** Some element types: [std::vector<int>], [std::string] and [int]. *)
Definition std_vector_int : element_type :=
  {| carrier := list Z; value_initialized := [];
     member_clear := Some (λ _, []) |}.

Definition std_string : element_type :=
  {| carrier := list Byte.byte; value_initialized := [];
     member_clear := Some (λ _, []) |}.

Definition int_ : element_type :=
  {| carrier := Z; value_initialized := 0; member_clear := None |}.

(** A class whose member [clear()] does not produce the value-initialised
    state:
    [struct counter { int n{0}; int resets{0}; void clear() { n = 0; ++resets; } };] *)
Definition counter : element_type :=
  {| carrier := Z * Z; value_initialized := (0, 0);
     member_clear := Some (λ c, (0, (snd c + 1))) |}.

(* ===================================================================== *)
(** ** [enum struct strong_type_skill]                                    *)
(* ===================================================================== *)

Module strong_type_skill.

(** No underlying type is given: it is [int], and a skill set is any
    value of it. *)
Definition t : Type := Z.

Definition none           : t := 0.
Definition add            : t := Z.shiftl 1 0.
Definition subtract       : t := Z.shiftl 1 1.
Definition multiply       : t := Z.shiftl 1 2.
Definition divide         : t := Z.shiftl 1 3.
Definition modulo         : t := Z.shiftl 1 4.
Definition bitwise_and    : t := Z.shiftl 1 5.
Definition bitwise_or     : t := Z.shiftl 1 6.
Definition bitwise_xor    : t := Z.shiftl 1 7.
Definition bitwise_not    : t := Z.shiftl 1 8.
Definition bitwise_lshift : t := Z.shiftl 1 9.
Definition bitwise_rshift : t := Z.shiftl 1 10.
Definition logical_and    : t := Z.shiftl 1 11.
Definition logical_or     : t := Z.shiftl 1 12.
Definition logical_not    : t := Z.shiftl 1 13.
Definition increment      : t := Z.shiftl 1 14.
Definition decrement      : t := Z.shiftl 1 15.
Definition convert        : t := Z.shiftl 1 16.
Definition comparable     : t := Z.shiftl 1 17.
Definition additive       : t := Z.lor add subtract.
Definition multiplicative : t := Z.lor (Z.lor multiply divide) modulo.
Definition bitwise_logic  : t :=
  Z.lor (Z.lor (Z.lor bitwise_and bitwise_or) bitwise_xor) bitwise_not.
Definition bitwise_shift  : t := Z.lor bitwise_lshift bitwise_rshift.
Definition logic          : t := Z.lor (Z.lor logical_and logical_or) logical_not.

(** Modelled from the spec: [seqan3/core/add_enum_bitwise_operators.hpp]
    is not among the sources; the enumeration opts in there
    ([add_enum_bitwise_operators<strong_type_skill> = true]) and so gets
    the intersection operator [&] of flag sets, the bitwise and of the
    underlying values. *)
Definition band (a b : t) : t := Z.land a b.

(** The condition [(skills & s) != strong_type_skill::none] of the
    [requires] clauses. *)
Definition has (skills s : t) : bool := negb (band skills s =? none).

End strong_type_skill.

(* ===================================================================== *)
(** ** The operators of the underlying type                                *)
(* ===================================================================== *)

(** What [strong_type] uses of [value_t].  An operator yields [None] where
    [value_t] gives it no result (a shift by the width or a division by
    zero of a built-in integer, an operator the type does not have). *)
Class value_operators (value_t : Type) : Type := {
  v_plus : value_t → value_t → option value_t;
  v_minus : value_t → value_t → option value_t;
  v_times : value_t → value_t → option value_t;
  v_divides : value_t → value_t → option value_t;
  v_modulus : value_t → value_t → option value_t;
  v_bit_and : value_t → value_t → option value_t;
  v_bit_or : value_t → value_t → option value_t;
  v_bit_xor : value_t → value_t → option value_t;
  v_bit_not : value_t → option value_t;
  v_shift_left : value_t → value_t → option value_t;
  v_shift_right : value_t → value_t → option value_t;
  (** the right operand is a value of some [std::integral] type *)
  v_shift_left_integral : value_t → Z → option value_t;
  v_shift_right_integral : value_t → Z → option value_t;
  v_logical_and : value_t → value_t → option bool;
  v_logical_or : value_t → value_t → option bool;
  v_logical_not : value_t → option bool;
  (** the value an object holds after [++] and after [--] *)
  v_increment : value_t → option value_t;
  v_decrement : value_t → option value_t;
  v_equal_to : value_t → value_t → bool
}.

(* ===================================================================== *)
(** ** [class strong_type]                                                *)
(* ===================================================================== *)

(** The operator members of [strong_type], one per declaration. *)
Inductive operator : Set :=
| op_plus | op_minus
| op_times | op_divides | op_modulus
| op_bit_and | op_bit_or | op_bit_xor | op_bit_not
| op_shift_left | op_shift_left_integral
| op_shift_right | op_shift_right_integral
| op_logical_and | op_logical_or | op_logical_not
| op_pre_increment | op_post_increment
| op_pre_decrement | op_post_decrement
| op_equal_to | op_not_equal_to
| op_convert.

(** The skill named in the [requires] clause of each operator. *)
Definition required_skill (o : operator) : strong_type_skill.t :=
  match o with
  | op_plus => strong_type_skill.add
  | op_minus => strong_type_skill.subtract
  | op_times => strong_type_skill.multiply
  | op_divides => strong_type_skill.divide
  | op_modulus => strong_type_skill.modulo
  | op_bit_and => strong_type_skill.bitwise_and
  | op_bit_or => strong_type_skill.bitwise_or
  | op_bit_xor => strong_type_skill.bitwise_xor
  | op_bit_not => strong_type_skill.bitwise_not
  | op_shift_left | op_shift_left_integral => strong_type_skill.bitwise_lshift
  | op_shift_right | op_shift_right_integral => strong_type_skill.bitwise_rshift
  | op_logical_and => strong_type_skill.logical_and
  | op_logical_or => strong_type_skill.logical_or
  | op_logical_not => strong_type_skill.logical_not
  | op_pre_increment | op_post_increment => strong_type_skill.increment
  | op_pre_decrement | op_post_decrement => strong_type_skill.decrement
  | op_equal_to | op_not_equal_to => strong_type_skill.comparable
  | op_convert => strong_type_skill.convert
  end.

(** Whether the [requires] clause of an operator is satisfied in
    [strong_type<value_t, derived_t, skills>]. *)
Definition requires_clause (skills : strong_type_skill.t) (o : operator) : bool :=
  strong_type_skill.has skills (required_skill o).

(** Objects live at locations; a reference is the location it is bound
    to. *)
Abbreviation loc := positive (only parsing).

(** The value category and constness of the reference an accessor
    returns. *)
Inductive value_category : Set := lvalue | xvalue.

Record value_ref : Set := {
  target : loc;
  category : value_category;
  is_const : bool
}.

Module strong_type.
Section strong_type.

Context {value_t : Type} {ops : value_operators value_t}.
Variable skills : strong_type_skill.t.

(** An object of the class: its only data member, [value_t value;].
    [derived_t] adds no state to its base, so its objects are
    represented in the same way. *)
Record object : Type := { value : value_t }.
Abbreviation derived_t := object (only parsing).

(** [constexpr explicit strong_type(value_t _value) : value(std::move(_value))];
    [derived_t{v}] goes through the inherited constructor. *)
Definition construct (_value : value_t) : derived_t := {| value := _value |}.

(** A computation over the objects in memory; [None] when it has no
    defined result. *)
Definition M (A : Type) : Type :=
  gmap loc object → option (A * gmap loc object).

Definition ret {A} (a : A) : M A := λ σ, Some (a, σ).

Definition bind {A B} (m : M A) (k : A → M B) : M B :=
  λ σ, match m σ with
       | Some (a, σ') => k a σ'
       | None => None
       end.

Definition lift {A} (o : option A) : M A :=
  λ σ, match o with
       | Some a => Some (a, σ)
       | None => None
       end.

Notation "'let!' x ':=' m 'in' k" := (bind m (λ x, k))
  (at level 10, x name, m at level 100, k at level 200).

(** Reading the member [value] through a reference to it. *)
Definition read_value (r : value_ref) : M value_t :=
  λ σ, match σ !! target r with
       | Some o => Some (value o, σ)
       | None => None
       end.

(** Assigning to the member [value] through a reference to it. *)
Definition write_value (r : value_ref) (v : value_t) : M unit :=
  λ σ, match σ !! target r with
       | Some _ => Some (tt, <[target r := {| value := v |}]> σ)
       | None => None
       end.

(** The four accessors: [get() &], [get() const &], [get() &&] and
    [get() const &&]. *)
Definition get (this : loc) : M value_ref :=
  ret {| target := this; category := lvalue; is_const := false |}.

Definition get_const (this : loc) : M value_ref :=
  ret {| target := this; category := lvalue; is_const := true |}.

Definition get_rvalue (this : loc) : M value_ref :=
  ret {| target := this; category := xvalue; is_const := false |}.

Definition get_const_rvalue (this : loc) : M value_ref :=
  ret {| target := this; category := xvalue; is_const := true |}.

(** A member that exists only when its [requires] clause holds takes
    the evidence as its first argument. *)
Abbreviation requires o := (requires_clause skills o = true) (only parsing).

(** [get() (op) other.get()] for a binary operator of [value_t]. *)
Definition apply_binary {A} (op : value_t → value_t → option A)
    (this other : loc) : M A :=
  let! r1 := get this in
  let! a := read_value r1 in
  let! r2 := get_const other in
  let! b := read_value r2 in
  lift (op a b).

Definition operator_plus (_ : requires op_plus) (this other : loc)
  : M derived_t :=
  let! c := apply_binary v_plus this other in ret (construct c).

Definition operator_minus (_ : requires op_minus) (this other : loc)
  : M derived_t :=
  let! c := apply_binary v_minus this other in ret (construct c).

Definition operator_times (_ : requires op_times) (this other : loc)
  : M derived_t :=
  let! c := apply_binary v_times this other in ret (construct c).

Definition operator_divides (_ : requires op_divides) (this other : loc)
  : M derived_t :=
  let! c := apply_binary v_divides this other in ret (construct c).

Definition operator_modulus (_ : requires op_modulus) (this other : loc)
  : M derived_t :=
  let! c := apply_binary v_modulus this other in ret (construct c).

Definition operator_bit_and (_ : requires op_bit_and) (this other : loc)
  : M derived_t :=
  let! c := apply_binary v_bit_and this other in ret (construct c).

Definition operator_bit_or (_ : requires op_bit_or) (this other : loc)
  : M derived_t :=
  let! c := apply_binary v_bit_or this other in ret (construct c).

Definition operator_bit_xor (_ : requires op_bit_xor) (this other : loc)
  : M derived_t :=
  let! c := apply_binary v_bit_xor this other in ret (construct c).

(** [derived_t{~get()}] *)
Definition operator_bit_not (_ : requires op_bit_not) (this : loc)
  : M derived_t :=
  let! r := get this in
  let! a := read_value r in
  let! c := lift (v_bit_not a) in
  ret (construct c).

Definition operator_shift_left (_ : requires op_shift_left)
    (this other : loc) : M derived_t :=
  let! c := apply_binary v_shift_left this other in ret (construct c).

(** [derived_t{get() << shift}] *)
Definition operator_shift_left_integral (_ : requires op_shift_left_integral)
    (this : loc) (shift : Z) : M derived_t :=
  let! r := get this in
  let! a := read_value r in
  let! c := lift (v_shift_left_integral a shift) in
  ret (construct c).

Definition operator_shift_right (_ : requires op_shift_right)
    (this other : loc) : M derived_t :=
  let! c := apply_binary v_shift_right this other in ret (construct c).

(** [derived_t{get() >> shift}] *)
Definition operator_shift_right_integral
    (_ : requires op_shift_right_integral)
    (this : loc) (shift : Z) : M derived_t :=
  let! r := get this in
  let! a := read_value r in
  let! c := lift (v_shift_right_integral a shift) in
  ret (construct c).

Definition operator_logical_and (_ : requires op_logical_and)
    (this other : loc) : M bool :=
  apply_binary v_logical_and this other.

Definition operator_logical_or (_ : requires op_logical_or)
    (this other : loc) : M bool :=
  apply_binary v_logical_or this other.

(** [!get()] *)
Definition operator_logical_not (_ : requires op_logical_not) (this : loc)
  : M bool :=
  let! r := get this in
  let! a := read_value r in
  lift (v_logical_not a).

(** [++get()] and [--get()]: the built-in or overloaded operator reads
    the value through the reference and stores its successor or
    predecessor. *)
Definition increment_through (r : value_ref) : M unit :=
  let! a := read_value r in
  let! a' := lift (v_increment a) in
  write_value r a'.

Definition decrement_through (r : value_ref) : M unit :=
  let! a := read_value r in
  let! a' := lift (v_decrement a) in
  write_value r a'.

(** [derived_t & operator++()]: the reference returned is
    [static_cast<derived_t &>( *this )]. *)
Definition operator_pre_increment (_ : requires op_pre_increment)
    (this : loc) : M loc :=
  let! r := get this in
  let! _ := increment_through r in
  ret this.

(** [derived_t operator++(int)] *)
Definition operator_post_increment (_ : requires op_post_increment)
    (this : loc) : M derived_t :=
  let! r := get this in
  let! a := read_value r in
  let tmp := construct a in
  let! r' := get this in
  let! _ := increment_through r' in
  ret tmp.

(** [derived_t & operator--()] *)
Definition operator_pre_decrement (_ : requires op_pre_decrement)
    (this : loc) : M loc :=
  let! r := get this in
  let! _ := decrement_through r in
  ret this.

(** [derived_t operator--(int)] *)
Definition operator_post_decrement (_ : requires op_post_decrement)
    (this : loc) : M derived_t :=
  let! r := get this in
  let! a := read_value r in
  let tmp := construct a in
  let! r' := get this in
  let! _ := decrement_through r' in
  ret tmp.

(** [bool operator==(strong_type const & rhs) const] *)
Definition operator_equal_to (_ : requires op_equal_to)
    (this rhs : loc) : M bool :=
  let! r1 := get_const this in
  let! a := read_value r1 in
  let! r2 := get_const rhs in
  let! b := read_value r2 in
  ret (v_equal_to a b).

(** [bool operator!=(strong_type const & rhs) const]:
    [return !( *this == rhs );].  Both members carry the same
    [requires] clause. *)
Definition operator_not_equal_to (e : requires op_not_equal_to)
    (this rhs : loc) : M bool :=
  let! b := operator_equal_to e this rhs in
  ret (negb b).

(** [explicit operator value_t() const] *)
Definition operator_convert (_ : requires op_convert) (this : loc)
  : M value_t :=
  let! r := get_const this in
  read_value r.

End strong_type.
End strong_type.

Arguments strong_type.object : clear implicits.
Arguments strong_type.M : clear implicits.

(* ===================================================================== *)
(** ** Some underlying types                                               *)
(* ===================================================================== *)

(** [unsigned int], 32 bits wide: arithmetic is modulo [2^32]; division
    and remainder by zero and shifts by a negative amount or by the width
    or more have no defined result. *)
Definition unsigned_wrap (z : Z) : Z := z mod 2 ^ 32.

Definition unsigned_shift_ok (n : Z) : bool := (0 <=? n) && (n <? 32).

Definition unsigned_int_operators : value_operators Z := {|
  v_plus a b := Some (unsigned_wrap (a + b));
  v_minus a b := Some (unsigned_wrap (a - b));
  v_times a b := Some (unsigned_wrap (a * b));
  v_divides a b := if b =? 0 then None else Some (a / b);
  v_modulus a b := if b =? 0 then None else Some (a mod b);
  v_bit_and a b := Some (Z.land a b);
  v_bit_or a b := Some (Z.lor a b);
  v_bit_xor a b := Some (Z.lxor a b);
  v_bit_not a := Some (unsigned_wrap (Z.lnot a));
  v_shift_left a b :=
    if unsigned_shift_ok b then Some (unsigned_wrap (Z.shiftl a b)) else None;
  v_shift_right a b :=
    if unsigned_shift_ok b then Some (Z.shiftr a b) else None;
  v_shift_left_integral a n :=
    if unsigned_shift_ok n then Some (unsigned_wrap (Z.shiftl a n)) else None;
  v_shift_right_integral a n :=
    if unsigned_shift_ok n then Some (Z.shiftr a n) else None;
  v_logical_and a b := Some (negb (a =? 0) && negb (b =? 0));
  v_logical_or a b := Some (negb (a =? 0) || negb (b =? 0));
  v_logical_not a := Some (a =? 0);
  v_increment a := Some (unsigned_wrap (a + 1));
  v_decrement a := Some (unsigned_wrap (a - 1));
  v_equal_to a b := a =? b
|}.

(** [double], as IEEE 754 binary64: [%], the bitwise operators and the
    shifts do not exist for it; comparison is the IEEE one. *)
Definition double_nonzero (a : float) : bool := negb (PrimFloat.eqb a PrimFloat.zero).

Definition double_operators : value_operators float := {|
  v_plus a b := Some (PrimFloat.add a b);
  v_minus a b := Some (PrimFloat.sub a b);
  v_times a b := Some (PrimFloat.mul a b);
  v_divides a b := Some (PrimFloat.div a b);
  v_modulus _ _ := None;
  v_bit_and _ _ := None;
  v_bit_or _ _ := None;
  v_bit_xor _ _ := None;
  v_bit_not _ := None;
  v_shift_left _ _ := None;
  v_shift_right _ _ := None;
  v_shift_left_integral _ _ := None;
  v_shift_right_integral _ _ := None;
  v_logical_and a b := Some (double_nonzero a && double_nonzero b);
  v_logical_or a b := Some (double_nonzero a || double_nonzero b);
  v_logical_not a := Some (negb (double_nonzero a));
  v_increment a := Some (PrimFloat.add a PrimFloat.one);
  v_decrement a := Some (PrimFloat.sub a PrimFloat.one);
  v_equal_to a b := PrimFloat.eqb a b
|}.

(** A class type whose [==] takes the tolerance of its left operand:
    [struct approx
     { int value; int tolerance;
       bool operator==(approx const & rhs) const
       { return std::abs(value - rhs.value) <= tolerance; } };]
    It has no other operator. *)
Definition approx_operators : value_operators (Z * Z) := {|
  v_plus _ _ := None;
  v_minus _ _ := None;
  v_times _ _ := None;
  v_divides _ _ := None;
  v_modulus _ _ := None;
  v_bit_and _ _ := None;
  v_bit_or _ _ := None;
  v_bit_xor _ _ := None;
  v_bit_not _ := None;
  v_shift_left _ _ := None;
  v_shift_right _ _ := None;
  v_shift_left_integral _ _ := None;
  v_shift_right_integral _ _ := None;
  v_logical_and _ _ := None;
  v_logical_or _ _ := None;
  v_logical_not _ := None;
  v_increment _ := None;
  v_decrement _ := None;
  v_equal_to a b := Z.abs (fst a - fst b) <=? snd a
|}.

(* ===================================================================== *)
(** ** Vocabulary of the statements                                        *)
(* ===================================================================== *)

(** [i] is the first position of [fs] that holds [f]. *)
Definition first_occurrence (fs : list field.t) (f : field.t) (i : nat) : Prop :=
  fs !! i = Some f ∧ ∀ j, (j < i)%nat → fs !! j ≠ Some f.

(** The reset of one element in the words of the documentation of
    [record::clear]: containers that provide [.clear()] are cleared, all
    other elements are re-initialised with [= {}]. *)
Definition reset_as_documented (e : any) : any :=
  let (t, v) := e in
  existT t (match member_clear t with
            | Some clear => clear v
            | None => value_initialized t
            end).

(** The elements of a tuple by position, used to supply the values
    written into a record. *)
Fixpoint tuple_nth (ts : list element_type) (i : nat)
  : tuple ts → tuple_element i ts :=
  match ts as l return tuple l → tuple_element i l with
  | [] => λ _, tt
  | t :: ts' =>
      match i as n return tuple (t :: ts') → tuple_element n (t :: ts') with
      | O => fst
      | S i' => λ r, tuple_nth ts' i' (snd r)
      end
  end.

(** An element of the type found at position [i], together with that
    type; nothing past the end. *)
Fixpoint element_as_any (ts : list element_type) (i : nat)
  : tuple_element i ts → option any :=
  match ts as l return tuple_element i l → option any with
  | [] => λ _, None
  | t :: ts' =>
      match i as n return tuple_element n (t :: ts') → option any with
      | O => λ v, Some (existT t v)
      | S i' => element_as_any ts' i'
      end
  end.

(* ===================================================================== *)
(** * Properties of [fields]                                              *)
(* ===================================================================== *)

Example index_of_id :
  fields.index_of [field.seq; field.id; field.qual] field.id = Some 1.
Proof. reflexivity. Qed.

Example index_of_offset :
  fields.index_of [field.seq; field.id; field.qual] field.offset
  = Some fields.npos.
Proof. reflexivity. Qed.

Example duplicate_rejected :
  fields.accepted [field.seq; field.id; field.seq] = false.
Proof. reflexivity. Qed.

Lemma field_eqb_eq (a b : field.t) : field.eqb a b = true ↔ a = b.
Proof.
  unfold field.eqb. rewrite Z.eqb_eq. split; [|by intros ->].
  destruct a, b; simpl; intros E; first [reflexivity | discriminate E].
Qed.

Lemma field_eqb_neq (a b : field.t) : field.eqb a b = false ↔ a ≠ b.
Proof.
  rewrite <-field_eqb_eq. destruct (field.eqb a b); split; congruence.
Qed.

(** Below the maximum, [++i] does not wrap. *)
Lemma size_t_succ_nat (n : nat) :
  Z.of_nat n < size_t_max → size_t_succ (Z.of_nat n) = Z.of_nat (S n).
Proof.
  unfold size_t_succ, size_t_max. intros Hn.
  rewrite Z.mod_small; lia.
Qed.

(** The result of the loop of [index_of] entered at position [n]. *)
Lemma index_of_loop_spec (fs : list field.t) (f : field.t) :
  fields.size fs <= size_t_max →
  ∀ (fuel n : nat),
    (n ≤ length fs)%nat → (length fs - n < fuel)%nat →
    fields.index_of_loop fs fuel (Z.of_nat n) f
    = Some (match list_find (λ x, x = f) (drop n fs) with
            | Some (k, _) => Z.of_nat (n + k)
            | None => fields.npos
            end).
Proof.
  unfold fields.size. intros Hsize fuel.
  induction fuel as [|fuel IH]; intros n Hn Hfuel; [lia|].
  simpl. unfold fields.size, fields.as_array.
  destruct (Z.ltb_spec (Z.of_nat n) (Z.of_nat (length fs))) as [Hlt|Hge].
  - rewrite Nat2Z.id.
    destruct (lookup_lt_is_Some_2 fs n) as [x Hx]; [lia|].
    rewrite Hx, (drop_S _ _ _ Hx). simpl.
    destruct (field.eqb x f) eqn:E.
    + apply field_eqb_eq in E. rewrite decide_True by done.
      do 2 f_equal. lia.
    + apply field_eqb_neq in E. rewrite decide_False by done.
      rewrite size_t_succ_nat by lia.
      rewrite IH by lia.
      destruct (list_find _ (drop (S n) fs)) as [[k y]|]; simpl; [|done].
      do 2 f_equal. lia.
  - rewrite drop_ge by lia. done.
Qed.

Lemma index_of_list_find (fs : list field.t) (f : field.t) :
  fields.size fs <= size_t_max →
  fields.index_of fs f
  = Some (match list_find (λ x, x = f) fs with
          | Some (k, _) => Z.of_nat k
          | None => fields.npos
          end).
Proof.
  intros Hsize. unfold fields.index_of.
  change 0 with (Z.of_nat 0).
  rewrite (index_of_loop_spec fs f Hsize) by lia.
  by rewrite drop_0.
Qed.

Lemma list_find_first_occurrence (fs : list field.t) (f : field.t) (i : nat) :
  first_occurrence fs f i ↔ list_find (λ x, x = f) fs = Some (i, f).
Proof.
  rewrite list_find_Some. unfold first_occurrence. split.
  - intros [Hi Hfirst]. split_and!; [done..|].
    intros j y Hj Hlt ->. by apply (Hfirst j).
  - intros (Hi & _ & Hfirst). split; [done|].
    intros j Hlt Hj. by apply (Hfirst j f).
Qed.

Lemma index_of_present (fs : list field.t) (f : field.t) (i : nat) :
  fields.size fs <= size_t_max →
  first_occurrence fs f i → fields.index_of fs f = Some (Z.of_nat i).
Proof.
  intros Hsize Hi. rewrite index_of_list_find by done.
  apply list_find_first_occurrence in Hi. by rewrite Hi.
Qed.

Lemma index_of_absent (fs : list field.t) (f : field.t) :
  fields.size fs <= size_t_max →
  f ∉ fs → fields.index_of fs f = Some fields.npos.
Proof.
  intros Hsize Hf. rewrite index_of_list_find by done.
  destruct (list_find _ fs) as [[k y]|] eqn:E; [|done].
  apply list_find_Some in E as (Hk & -> & _).
  destruct Hf. by eapply list_elem_of_lookup_2.
Qed.

Lemma present_first_occurrence (fs : list field.t) (f : field.t) :
  f ∈ fs → ∃ i, first_occurrence fs f i.
Proof.
  intros Hf.
  destruct (list_find_elem_of (λ x, x = f) fs f Hf eq_refl) as [[i y] E].
  exists i. apply list_find_first_occurrence.
  by pose proof E as (_ & -> & _)%list_find_Some.
Qed.

(** The sentinel is not a position of the list. *)
Lemma npos_out_of_range (fs : list field.t) :
  fields.size fs <= size_t_max → ¬ (0 <= fields.npos < fields.size fs).
Proof. unfold fields.npos. lia. Qed.

(** What [index_of] returns, in one equation. *)
Lemma index_of_cases (fs : list field.t) (f : field.t) :
  fields.size fs <= size_t_max →
  (f ∈ fs ∧ ∃ i, first_occurrence fs f i
               ∧ fields.index_of fs f = Some (Z.of_nat i)
               ∧ Z.of_nat i < fields.size fs)
  ∨ ((f ∉ fs) ∧ fields.index_of fs f = Some fields.npos).
Proof.
  intros Hsize. destruct (decide (f ∈ fs)) as [Hf|Hf].
  - left. split; [done|].
    destruct (present_first_occurrence fs f Hf) as [i Hi].
    exists i. split_and!; [done|by apply index_of_present|].
    destruct Hi as [Hi _]. apply lookup_lt_Some in Hi.
    unfold fields.size. lia.
  - right. split; [done|]. by apply index_of_absent.
Qed.

Lemma contains_elem_of (fs : list field.t) (f : field.t) :
  fields.size fs <= size_t_max →
  fields.contains fs f = Some (bool_decide (f ∈ fs)).
Proof.
  intros Hsize. unfold fields.contains.
  destruct (index_of_cases fs f Hsize) as [(Hf & i & _ & -> & Hi)|[Hf ->]];
    simpl; f_equal.
  - rewrite bool_decide_eq_true_2 by done.
    pose proof (npos_out_of_range fs Hsize).
    apply negb_true_iff, Z.eqb_neq. lia.
  - by rewrite bool_decide_eq_false_2.
Qed.

(** C2.  For every tag list that [sizeof...] can measure and every tag:
    [index_of] returns the zero-based position of the first occurrence of
    the tag when it is present and the sentinel [npos] when it is absent;
    [npos] is not an index of the list; [contains] is true exactly when
    [index_of] is not [npos].  Both take the tag list and the tag only, so
    no record instance enters the result. *)
Theorem fields_index_of_contains (fs : list field.t) (f : field.t) :
  fields.size fs <= size_t_max →
  (∀ i, first_occurrence fs f i → fields.index_of fs f = Some (Z.of_nat i))
  ∧ (f ∈ fs → ∃ i, first_occurrence fs f i)
  ∧ (f ∉ fs → fields.index_of fs f = Some fields.npos)
  ∧ ¬ (0 <= fields.npos < fields.size fs)
  ∧ ∃ idx, fields.index_of fs f = Some idx
           ∧ fields.contains fs f = Some (bool_decide (idx ≠ fields.npos)).
Proof.
  intros Hsize. split_and!.
  - intros i. by apply index_of_present.
  - apply present_first_occurrence.
  - by apply index_of_absent.
  - by apply npos_out_of_range.
  - unfold fields.contains.
    destruct (index_of_cases fs f Hsize) as [(_ & i & _ & -> & Hi)|[_ ->]].
    + exists (Z.of_nat i). split; [done|]. simpl. f_equal.
      assert (Z.of_nat i ≠ fields.npos) by (unfold fields.npos; lia).
      rewrite bool_decide_eq_true_2 by done.
      by apply negb_true_iff, Z.eqb_neq.
    + exists fields.npos. split; [done|].
      by rewrite bool_decide_eq_false_2 by auto.
Qed.

Lemma fields_index_of_contains_witness :
  let fs := [field.seq; field.id; field.qual] in
  fields.size fs <= size_t_max
  ∧ (∀ i, first_occurrence fs field.id i
          → fields.index_of fs field.id = Some (Z.of_nat i))
  ∧ (field.id ∈ fs → ∃ i, first_occurrence fs field.id i)
  ∧ (field.id ∉ fs → fields.index_of fs field.id = Some fields.npos)
  ∧ ¬ (0 <= fields.npos < fields.size fs)
  ∧ ∃ idx, fields.index_of fs field.id = Some idx
           ∧ fields.contains fs field.id
             = Some (bool_decide (idx ≠ fields.npos)).
Proof.
  split; [vm_compute; discriminate|].
  apply fields_index_of_contains. vm_compute; discriminate.
Defined.

(* --------------------------------------------------------------------- *)
(** *** The duplicate check                                               *)
(* --------------------------------------------------------------------- *)

(** The inner loop entered at [j] for the element [x] at position [i]
    returns [false] when [x] occurs at [j] or later and falls through
    otherwise. *)
Lemma unique_inner_loop_spec (fs : list field.t) (i : nat) (x : field.t) :
  fields.size fs <= size_t_max →
  fs !! i = Some x →
  ∀ (fuel j : nat),
    (j ≤ length fs)%nat → (length fs - j < fuel)%nat →
    fields.unique_inner_loop fs fuel (Z.of_nat i) (Z.of_nat j)
    = Some (if decide (x ∈ drop j fs) then Return false else Fallthrough).
Proof.
  unfold fields.size. intros Hsize Hx fuel.
  induction fuel as [|fuel IH]; intros j Hj Hfuel; [lia|].
  simpl. unfold fields.size, fields.as_array.
  destruct (Z.ltb_spec (Z.of_nat j) (Z.of_nat (length fs))) as [Hlt|Hge].
  - rewrite !Nat2Z.id, Hx.
    destruct (lookup_lt_is_Some_2 fs j) as [y Hy]; [lia|].
    rewrite Hy, (drop_S _ _ _ Hy).
    destruct (field.eqb x y) eqn:E.
    + apply field_eqb_eq in E as ->.
      rewrite decide_True; [done|]. apply list_elem_of_here.
    + apply field_eqb_neq in E.
      rewrite size_t_succ_nat by lia. rewrite IH by lia.
      f_equal.
      destruct (decide (x ∈ drop (S j) fs)) as [Hin|Hin].
      * rewrite decide_True; [done|]. by apply list_elem_of_further.
      * rewrite decide_False; [done|]. by intros [?|?]%elem_of_cons.
  - rewrite drop_ge by lia.
    rewrite decide_False; [done|]. apply not_elem_of_nil.
Qed.

(** The outer loop entered at [n] decides whether the elements from [n]
    on are pairwise different. *)
Lemma unique_outer_loop_spec (fs : list field.t) :
  fields.size fs <= size_t_max →
  ∀ (fuel n : nat),
    (n ≤ length fs)%nat → (length fs - n < fuel)%nat →
    fields.unique_outer_loop fs fuel (Z.of_nat n)
    = Some (bool_decide (NoDup (drop n fs))).
Proof.
  intros Hsize fuel.
  induction fuel as [|fuel IH]; intros n Hn Hfuel; [lia|].
  cbn [fields.unique_outer_loop]. unfold fields.size in *.
  destruct (Z.ltb_spec (Z.of_nat n) (Z.of_nat (length fs))) as [Hlt|Hge].
  - destruct (lookup_lt_is_Some_2 fs n) as [x Hx]; [lia|].
    rewrite size_t_succ_nat by lia.
    rewrite (unique_inner_loop_spec fs n x Hsize Hx) by lia.
    rewrite (drop_S _ _ _ Hx).
    destruct (decide (x ∈ drop (S n) fs)) as [Hin|Hin].
    + f_equal. symmetry. apply bool_decide_eq_false.
      rewrite NoDup_cons. tauto.
    + rewrite IH by lia. f_equal.
      apply bool_decide_ext. rewrite NoDup_cons. tauto.
  - by rewrite drop_ge by lia.
Qed.

Lemma static_assert_condition_NoDup (fs : list field.t) :
  fields.size fs <= size_t_max →
  fields.static_assert_condition fs = Some (bool_decide (NoDup fs)).
Proof.
  intros Hsize. unfold fields.static_assert_condition.
  change 0 with (Z.of_nat 0).
  rewrite (unique_outer_loop_spec fs Hsize) by lia.
  by rewrite drop_0.
Qed.

(** A list is free of duplicates unless two positions hold the same tag. *)
Lemma not_NoDup_duplicate (l : list field.t) :
  ¬ NoDup l ↔ ∃ i j x, (i < j)%nat ∧ l !! i = Some x ∧ l !! j = Some x.
Proof.
  split.
  - induction l as [|a l IH]; intros Hdup.
    + destruct Hdup. constructor.
    + destruct (decide (a ∈ l)) as [Hin|Hin].
      * apply list_elem_of_lookup in Hin as [k Hk].
        exists 0%nat, (S k), a. split_and!; [lia|done..].
      * destruct IH as (i & j & x & Hlt & Hi & Hj).
        { intros Hnd. apply Hdup. by constructor. }
        exists (S i), (S j), x. split_and!; [lia|done..].
  - intros (i & j & x & Hlt & Hi & Hj) Hnd.
    pose proof (NoDup_lookup l i j x Hnd Hi Hj). lia.
Qed.

(** C8.  For every tag list that [sizeof...] can measure, the condition of
    the [static_assert] evaluates to [true] exactly when no tag occurs
    twice and to [false] exactly when one does: a list with a duplicate is
    rejected where [fields] is instantiated, a list of distinct tags is
    accepted. *)
Theorem fields_static_assert_no_duplicates (fs : list field.t) :
  fields.size fs <= size_t_max →
  (fields.static_assert_condition fs = Some true ↔ NoDup fs)
  ∧ (fields.static_assert_condition fs = Some false ↔ ¬ NoDup fs)
  ∧ (fields.accepted fs = true ↔ NoDup fs)
  ∧ (fields.accepted fs = false ↔ ∃ i j x,
        (i < j)%nat ∧ fs !! i = Some x ∧ fs !! j = Some x).
Proof.
  intros Hsize. unfold fields.accepted.
  rewrite (static_assert_condition_NoDup fs Hsize).
  rewrite <-not_NoDup_duplicate.
  destruct (decide (NoDup fs)) as [Hnd|Hnd].
  - rewrite bool_decide_eq_true_2 by done. split_and!; split; done.
  - rewrite bool_decide_eq_false_2 by done. split_and!; split; done.
Qed.

Lemma fields_static_assert_no_duplicates_witness :
  let fs := [field.seq; field.id; field.seq] in
  fields.size fs <= size_t_max
  ∧ (fields.static_assert_condition fs = Some true ↔ NoDup fs)
  ∧ (fields.static_assert_condition fs = Some false ↔ ¬ NoDup fs)
  ∧ (fields.accepted fs = true ↔ NoDup fs)
  ∧ (fields.accepted fs = false ↔ ∃ i j x,
        (i < j)%nat ∧ fs !! i = Some x ∧ fs !! j = Some x).
Proof.
  split; [vm_compute; discriminate|].
  apply fields_static_assert_no_duplicates. vm_compute; discriminate.
Defined.

(* ===================================================================== *)
(** * Properties of [record]                                              *)
(* ===================================================================== *)

(** [clear_element] picks the member when there is one. *)
Lemma resolve_member (t : element_type) :
  record.resolve t = record.clear_element_member ↔ is_Some (member_clear t).
Proof.
  unfold record.resolve, record.viable.
  case_bool_decide; split; intros; done.
Qed.

Lemma resolve_assign (t : element_type) :
  record.resolve t = record.clear_element_assign ↔ member_clear t = None.
Proof.
  unfold record.resolve, record.viable.
  case_bool_decide as Hsome; split; intros Hc; try done.
  - rewrite Hc in Hsome. by destruct Hsome.
  - by apply eq_None_not_Some.
Qed.

Lemma clear_element_member_clear (t : element_type) (c : carrier t → carrier t)
    (v : carrier t) :
  member_clear t = Some c → record.clear_element t v = c v.
Proof.
  intros Hc. unfold record.clear_element.
  assert (record.resolve t = record.clear_element_member) as ->.
  { apply resolve_member. by rewrite Hc. }
  simpl. by rewrite Hc.
Qed.

Lemma clear_element_no_member (t : element_type) (v : carrier t) :
  member_clear t = None → record.clear_element t v = value_initialized t.
Proof.
  intros Hc. unfold record.clear_element.
  by apply resolve_assign in Hc as ->.
Qed.

Lemma clear_element_as_documented (t : element_type) (v : carrier t) :
  existT t (record.clear_element t v) = reset_as_documented (existT t v).
Proof.
  simpl. destruct (member_clear t) as [c|] eqn:Hc.
  - by rewrite (clear_element_member_clear t c).
  - by rewrite clear_element_no_member.
Qed.

(** [clear] acts on every position by [clear_element]. *)
Lemma element_at_expander (ts : list element_type) (i : nat) (r : tuple ts) :
  element_at ts i (record.expander ts r)
  = (λ e : any, existT (projT1 e) (record.clear_element (projT1 e) (projT2 e)))
      <$> element_at ts i r.
Proof.
  revert i r. induction ts as [|t ts IH]; intros i r; [done|].
  destruct i as [|i]; simpl; [done|]. apply IH.
Qed.

(** C3.  [clear()] resets every element in place: at each position the
    element is replaced by the result of its member [clear()] when its
    type has one and by the value-initialised value of its type otherwise.
    A record holding a [std::vector<int>] of three elements and an [int]
    of value 5 holds an empty vector and 0 afterwards. *)
Theorem record_clear_resets_every_element :
  (∀ (field_types : list element_type) (r : tuple field_types) (i : nat),
      element_at field_types i (record.clear field_types r)
      = reset_as_documented <$> element_at field_types i r)
  ∧ record.clear [std_vector_int; int_] ([1; 2; 3], (5, tt)) = ([], (0, tt))
  ∧ length (fst (record.clear [std_vector_int; int_] ([1; 2; 3], (5, tt))))
    = 0%nat.
Proof.
  split_and!; [|done..].
  intros ts r i. unfold record.clear. rewrite element_at_expander.
  destruct (element_at ts i r) as [[t v]|]; [|done].
  cbn [fmap option_fmap option_map projT1 projT2].
  by rewrite clear_element_as_documented.
Qed.

(** C10.  An element whose type has a member [clear()] is reset by that
    member and not by the assignment of [{}], also where the two differ
    (the class [counter]); the assignment is selected exactly for the
    types without the member. *)
Theorem record_clear_prefers_member_clear :
  (∀ (t : element_type) (c : carrier t → carrier t),
      member_clear t = Some c →
      record.resolve t = record.clear_element_member
      ∧ (∀ v, record.clear_element t v = c v)
      ∧ ∀ (field_types : list element_type) (r : tuple field_types) i v,
          element_at field_types i r = Some (existT t v) →
          element_at field_types i (record.clear field_types r)
          = Some (existT t (c v)))
  ∧ (∀ t : element_type,
        record.resolve t = record.clear_element_assign
        ↔ member_clear t = None)
  ∧ record.clear_element counter (3, 0) = (0, 1)
  ∧ record.clear_element counter (3, 0) ≠ value_initialized counter.
Proof.
  split_and!; [|apply resolve_assign|done..].
  intros t c Hc. split_and!.
  - apply resolve_member. by rewrite Hc.
  - intros v. by apply clear_element_member_clear.
  - intros ts r i v Hv. unfold record.clear.
    rewrite element_at_expander, Hv. simpl.
    by rewrite (clear_element_member_clear t c).
Qed.

Lemma record_clear_prefers_member_clear_witness :
  member_clear counter = Some (λ c, (0, snd c + 1))
  ∧ record.resolve counter = record.clear_element_member
  ∧ element_at [int_; counter] 1 (record.clear [int_; counter] (7, ((3, 0), tt)))
    = Some (existT counter (0, 1)).
Proof.
  split; [reflexivity|].
  destruct record_clear_prefers_member_clear as [Hmember _].
  destruct (Hmember counter (λ c, (0, snd c + 1)) eq_refl)
    as (Hresolve & _ & Hrecord).
  split; [exact Hresolve|].
  exact (Hrecord [int_; counter] (7, ((3, 0), tt)) 1%nat (3, 0) eq_refl).
Defined.

(* --------------------------------------------------------------------- *)
(** *** Access by tag                                                     *)
(* --------------------------------------------------------------------- *)

(** Positions are numbers, so a position and what is found there
    determine each other. *)
Lemma existT_position_inj {P : nat → Type} (i : nat) (x y : P i) :
  existT i x = existT i y → x = y.
Proof. apply Eqdep_dec.inj_pair2_eq_dec, Nat.eq_dec. Qed.

Lemma std_get_is_Some (ts : list element_type) (i : nat) :
  (i < length ts)%nat → is_Some (std_get ts i).
Proof.
  revert i. induction ts as [|t ts IH]; intros i Hi; simpl in *; [lia|].
  destruct i as [|i]; [done|].
  destruct (IH i) as [ref ->]; [lia|]. done.
Qed.

(** What is assigned through a reference is read back through it. *)
Lemma std_get_load_store (ts : list element_type) (i : nat) ref v r :
  std_get ts i = Some ref → load ref (store ref v r) = v.
Proof.
  revert i ref v r. induction ts as [|t ts IH]; intros i ref v r Href;
    [done|].
  destruct i as [|i]; simpl in Href.
  - by simplify_eq.
  - destruct (std_get ts i) as [ref'|] eqn:E; simplify_eq/=.
    by eapply IH.
Qed.

(** An assignment through the reference to one position leaves the other
    positions as they are. *)
Lemma std_get_load_store_other (ts : list element_type) (i j : nat)
    refi refj v r :
  i ≠ j → std_get ts i = Some refi → std_get ts j = Some refj →
  load refj (store refi v r) = load refj r.
Proof.
  revert i j refi refj v r.
  induction ts as [|t ts IH]; intros i j refi refj v r Hne Hi Hj; [done|].
  destruct i as [|i], j as [|j]; simpl in Hi, Hj; try done.
  - destruct (std_get ts j) eqn:E; by simplify_eq/=.
  - destruct (std_get ts i) eqn:E; by simplify_eq/=.
  - destruct (std_get ts i) eqn:Ei; destruct (std_get ts j) eqn:Ej;
      simplify_eq/=.
    eapply (IH i j); [lia|done..].
Qed.

(** A tag of the list resolves, through [index_of], to the position of
    its first occurrence. *)
Lemma get_impl_present (ts : list element_type) (fs : list field.t)
    (f : field.t) :
  fields.size fs <= size_t_max →
  record.static_assert_condition ts fs = true →
  f ∈ fs →
  ∃ i ref, first_occurrence fs f i
           ∧ fields.index_of fs f = Some (Z.of_nat i)
           ∧ std_get ts i = Some ref
           ∧ record.get_impl ts fs f = Some (existT i ref).
Proof.
  intros Hsize Hlen Hf. unfold record.get_impl. rewrite Hlen.
  apply Z.eqb_eq in Hlen. unfold fields.size in Hlen.
  rewrite contains_elem_of, bool_decide_eq_true_2 by done.
  destruct (present_first_occurrence fs f Hf) as [i Hi].
  rewrite (index_of_present fs f i Hsize Hi). simpl. rewrite Nat2Z.id.
  destruct (std_get_is_Some ts i) as [ref Href].
  { destruct Hi as [Hi _]. apply lookup_lt_Some in Hi. lia. }
  exists i, ref. by rewrite Href.
Qed.

(** For a tag that is not in the list the [static_assert] of [get_impl]
    fails. *)
Lemma get_impl_absent (ts : list element_type) (fs : list field.t)
    (f : field.t) :
  fields.size fs <= size_t_max →
  f ∉ fs → record.get_impl ts fs f = None.
Proof.
  intros Hsize Hf. unfold record.get_impl.
  rewrite contains_elem_of, bool_decide_eq_false_2 by done.
  by destruct (record.static_assert_condition ts fs).
Qed.

Lemma first_occurrence_unique (fs : list field.t) (f : field.t) (i j : nat) :
  first_occurrence fs f i → first_occurrence fs f j → i = j.
Proof.
  intros [Hi Hfi] [Hj Hfj].
  destruct (Nat.lt_trichotomy i j) as [?|[?|?]]; [|done|].
  - by destruct (Hfj i).
  - by destruct (Hfi j).
Qed.

(** After the assignments to the tags [l], a tag of [l] holds the value
    supplied for it and any other tag holds what it held. *)
Lemma write_all_load (ts : list element_type) (fs : list field.t)
    (vals : field.t → ∀ i, tuple_element i ts) :
  fields.size fs <= size_t_max →
  record.static_assert_condition ts fs = true →
  ∀ (l : list field.t) (r : tuple ts),
    (∀ f, f ∈ l → f ∈ fs) →
    ∃ r', record.write_all ts fs l vals r = Some r'
          ∧ ∀ g i ref, record.get_impl ts fs g = Some (existT i ref) →
                       load ref r' = if decide (g ∈ l) then vals g i
                                     else load ref r.
Proof.
  intros Hsize Hlen l.
  induction l as [|f l IH]; intros r Hl.
  - exists r. split; [done|]. intros g i ref _.
    rewrite decide_False; [done|]. apply not_elem_of_nil.
  - destruct (get_impl_present ts fs f Hsize Hlen) as (i & ref & Hi & _ & Href & Hget).
    { apply Hl, list_elem_of_here. }
    destruct (IH (store ref (vals f i) r)) as (r' & Hr' & Hload).
    { intros g Hg. by apply Hl, list_elem_of_further. }
    exists r'. split.
    { simpl. unfold record.write. rewrite Hget. simpl. exact Hr'. }
    intros g j refg Hg. rewrite (Hload g j refg Hg).
    destruct (decide (g ∈ l)) as [Hgl|Hgl].
    { rewrite decide_True; [done|]. by apply list_elem_of_further. }
    destruct (decide (g = f)) as [->|Hne].
    + rewrite decide_True by apply list_elem_of_here.
      rewrite Hget in Hg. simplify_eq.
      match goal with E : existT _ _ = existT _ _ |- _ =>
        apply existT_position_inj in E as <- end.
      by eapply std_get_load_store.
    + rewrite decide_False by (by intros [?|?]%elem_of_cons).
      assert (g ∈ fs) as Hgfs.
      { destruct (decide (g ∈ fs)) as [?|Hno]; [done|].
        by rewrite (get_impl_absent ts fs g Hsize Hno) in Hg. }
      destruct (get_impl_present ts fs g Hsize Hlen Hgfs)
        as (j' & refg' & Hj & _ & Hrefg & Hget').
      rewrite Hget' in Hg. simplify_eq.
      match goal with E : existT _ _ = existT _ _ |- _ =>
        apply existT_position_inj in E as <- end.
      eapply std_get_load_store_other; [|exact Href|done].
      intros Heq. destruct Hi as [Hi _], Hj as [Hj _]. congruence.
Qed.

(** C7.  For a record type that passes its [static_assert] and any tags
    [l] of its tag list: assigning to each field of [l], through the
    access by tag, the value given for that tag succeeds, the access
    resolves every tag through [index_of] to one position for writing and
    reading, and reading each field of [l] back through the access by tag
    yields the value that was assigned under that tag, whatever was
    assigned under the other tags. *)
Theorem record_write_read_round_trip (field_types : list element_type)
    (field_ids : list field.t) (l : list field.t)
    (vals : field.t → ∀ i, tuple_element i field_types)
    (r : tuple field_types) :
  fields.size field_ids <= size_t_max →
  record.static_assert_condition field_types field_ids = true →
  (∀ f, f ∈ l → f ∈ field_ids) →
  ∃ r', record.write_all field_types field_ids l vals r = Some r'
        ∧ ∀ f, f ∈ l →
               ∃ i, fields.index_of field_ids f = Some (Z.of_nat i)
                    ∧ record.read field_types field_ids f r'
                      = Some (existT i (vals f i)).
Proof.
  intros Hsize Hlen Hl.
  destruct (write_all_load field_types field_ids vals Hsize Hlen l r Hl)
    as (r' & Hr' & Hload).
  exists r'. split; [done|]. intros f Hf.
  destruct (get_impl_present field_types field_ids f Hsize Hlen (Hl f Hf))
    as (i & ref & _ & Hidx & _ & Hget).
  exists i. split; [done|].
  unfold record.read. rewrite Hget. simpl.
  rewrite (Hload f i ref Hget). by rewrite decide_True.
Qed.

Lemma record_write_read_round_trip_witness :
  let field_types := [std_string; std_vector_int; int_] in
  let field_ids := [field.seq; field.qual; field.offset] in
  let l := [field.offset; field.seq; field.qual] in
  let vals := λ f i,
    tuple_nth field_types i
      match f with
      | field.seq => ([Byte.x41; Byte.x43; Byte.x47], ([1], (1, tt)))
      | field.qual => ([Byte.x51], ([30; 31; 32], (2, tt)))
      | _ => ([Byte.x4f], ([3], (7, tt)))
      end in
  let r := tuple_default field_types in
  fields.size field_ids <= size_t_max
  ∧ record.static_assert_condition field_types field_ids = true
  ∧ (∀ f, f ∈ l → f ∈ field_ids)
  ∧ ∃ r', record.write_all field_types field_ids l vals r = Some r'
          ∧ ∀ f, f ∈ l →
                 ∃ i, fields.index_of field_ids f = Some (Z.of_nat i)
                      ∧ record.read field_types field_ids f r'
                        = Some (existT i (vals f i)).
Proof.
  intros field_types field_ids l vals r.
  assert (fields.size field_ids <= size_t_max) as Hsize
    by (vm_compute; discriminate).
  assert (∀ f, f ∈ l → f ∈ field_ids) as Hl.
  { intros f Hf. apply list_elem_of_In. apply list_elem_of_In in Hf.
    simpl in *. tauto. }
  split_and!; [exact Hsize|reflexivity|exact Hl|].
  exact (record_write_read_round_trip field_types field_ids l vals r
           Hsize eq_refl Hl).
Defined.

Example record_write_all_example :
  record.write_all [std_string; std_vector_int; int_]
    [field.seq; field.qual; field.offset]
    [field.offset; field.seq; field.qual]
    (λ f i, tuple_nth [std_string; std_vector_int; int_] i
              match f with
              | field.seq => ([Byte.x41; Byte.x43; Byte.x47], ([1], (1, tt)))
              | field.qual => ([Byte.x51], ([30; 31; 32], (2, tt)))
              | _ => ([Byte.x4f], ([3], (7, tt)))
              end)
    (tuple_default [std_string; std_vector_int; int_])
  = Some ([Byte.x41; Byte.x43; Byte.x47], ([30; 31; 32], (7, tt))).
Proof. reflexivity. Qed.

Example record_get_default :
  record.read [std_string; std_string; std_string]
    [field.seq; field.id; field.qual] field.seq
    (tuple_default [std_string; std_string; std_string])
  = Some (existT 0%nat ([] : list Byte.byte)).
Proof. reflexivity. Qed.

(* ===================================================================== *)
(** * Properties of [strong_type]                                         *)
(* ===================================================================== *)

(** The intersection with a single-bit skill is not [none] exactly when
    that bit is set. *)
Lemma has_single_bit (skills k : Z) :
  0 <= k →
  strong_type_skill.has skills (Z.shiftl 1 k) = true
  ↔ Z.testbit skills k = true.
Proof.
  intros Hk. unfold strong_type_skill.has, strong_type_skill.band,
    strong_type_skill.none.
  rewrite negb_true_iff, Z.eqb_neq, Z.shiftl_1_l. split.
  - intros Hne. destruct (Z.testbit skills k) eqn:Hbit; [done|].
    destruct Hne. apply Z.bits_inj'. intros n Hn.
    rewrite Z.land_spec, Z.bits_0, Z.pow2_bits_eqb by done.
    destruct (Z.eqb_spec k n) as [->|_]; [by rewrite Hbit|].
    apply andb_false_r.
  - intros Hbit Hzero.
    assert (Z.testbit (Z.land skills (2 ^ k)) k = true) as Hk'.
    { rewrite Z.land_spec, Hbit, Z.pow2_bits_eqb, Z.eqb_refl by done. done. }
    by rewrite Hzero, Z.bits_0 in Hk'.
Qed.

(** Every [requires] clause names one enumerator with a single bit. *)
Lemma required_skill_single_bit (o : operator) :
  ∃ k, 0 <= k <= 17 ∧ required_skill o = Z.shiftl 1 k.
Proof.
  destruct o; simpl; unfold strong_type_skill.add, strong_type_skill.subtract,
    strong_type_skill.multiply, strong_type_skill.divide,
    strong_type_skill.modulo, strong_type_skill.bitwise_and,
    strong_type_skill.bitwise_or, strong_type_skill.bitwise_xor,
    strong_type_skill.bitwise_not, strong_type_skill.bitwise_lshift,
    strong_type_skill.bitwise_rshift, strong_type_skill.logical_and,
    strong_type_skill.logical_or, strong_type_skill.logical_not,
    strong_type_skill.increment, strong_type_skill.decrement,
    strong_type_skill.convert, strong_type_skill.comparable;
    eexists; (split; [|reflexivity]); lia.
Qed.

(** C1.  For every skill set and every operator member: the [requires]
    clause of the member names the enumerator of its own operator family,
    that enumerator is the single bit the enumeration gives it, and the
    clause is satisfied if and only if that bit is set in the skill set.
    The table lists every member with its enumerator and bit; the two
    forms of [<<] (right operand a strong type, right operand an integral
    value) are gated by the one bit [bitwise_lshift], the two forms of
    [>>] by [bitwise_rshift]. *)
Theorem operator_enabled_iff_skill_bit (skills : strong_type_skill.t) :
  let gated (o : operator) (s : strong_type_skill.t) (k : Z) :=
    required_skill o = s
    ∧ s = Z.shiftl 1 k
    ∧ (requires_clause skills o = true ↔ Z.testbit skills k = true) in
  gated op_plus strong_type_skill.add 0
  ∧ gated op_minus strong_type_skill.subtract 1
  ∧ gated op_times strong_type_skill.multiply 2
  ∧ gated op_divides strong_type_skill.divide 3
  ∧ gated op_modulus strong_type_skill.modulo 4
  ∧ gated op_bit_and strong_type_skill.bitwise_and 5
  ∧ gated op_bit_or strong_type_skill.bitwise_or 6
  ∧ gated op_bit_xor strong_type_skill.bitwise_xor 7
  ∧ gated op_bit_not strong_type_skill.bitwise_not 8
  ∧ gated op_shift_left strong_type_skill.bitwise_lshift 9
  ∧ gated op_shift_left_integral strong_type_skill.bitwise_lshift 9
  ∧ gated op_shift_right strong_type_skill.bitwise_rshift 10
  ∧ gated op_shift_right_integral strong_type_skill.bitwise_rshift 10
  ∧ gated op_logical_and strong_type_skill.logical_and 11
  ∧ gated op_logical_or strong_type_skill.logical_or 12
  ∧ gated op_logical_not strong_type_skill.logical_not 13
  ∧ gated op_pre_increment strong_type_skill.increment 14
  ∧ gated op_post_increment strong_type_skill.increment 14
  ∧ gated op_pre_decrement strong_type_skill.decrement 15
  ∧ gated op_post_decrement strong_type_skill.decrement 15
  ∧ gated op_convert strong_type_skill.convert 16
  ∧ gated op_equal_to strong_type_skill.comparable 17
  ∧ gated op_not_equal_to strong_type_skill.comparable 17
  ∧ (∀ o, ∃ k, 0 <= k <= 17
               ∧ required_skill o = Z.shiftl 1 k
               ∧ (requires_clause skills o = true
                  ↔ Z.testbit skills k = true))
  ∧ requires_clause skills op_shift_left
    = requires_clause skills op_shift_left_integral
  ∧ requires_clause skills op_shift_right
    = requires_clause skills op_shift_right_integral.
Proof.
  intros gated. unfold gated.
  split_and!; try reflexivity;
    try match goal with
        | |- _ ↔ Z.testbit _ ?k = true =>
            apply (has_single_bit skills k); lia
        end.
  intros o. destruct (required_skill_single_bit o) as (k & Hk & Hskill).
  exists k. split_and!; [lia..|done|].
  unfold requires_clause. rewrite Hskill. apply has_single_bit. lia.
Qed.

Example additive_enables_plus_and_minus :
  requires_clause strong_type_skill.additive op_plus = true
  ∧ requires_clause strong_type_skill.additive op_minus = true
  ∧ requires_clause strong_type_skill.additive op_times = false.
Proof. done. Qed.

Example none_enables_nothing (o : operator) :
  requires_clause strong_type_skill.none o = false.
Proof. by destruct o. Qed.

Section strong_type_properties.

Context {value_t : Type} {ops : value_operators value_t}.
Variable skills : strong_type_skill.t.

Implicit Types (this other rhs : loc) (σ : gmap loc (strong_type.object value_t)).
Implicit Types (a b v : value_t) (r : value_ref).

Lemma read_value_lookup σ r v :
  σ !! target r = Some (strong_type.construct v) →
  strong_type.read_value r σ = Some (v, σ).
Proof. intros Hv. unfold strong_type.read_value. by rewrite Hv. Qed.

Lemma write_value_lookup σ r v v' :
  σ !! target r = Some (strong_type.construct v) →
  strong_type.write_value r v' σ
  = Some (tt, <[target r := strong_type.construct v']> σ).
Proof. intros Hv. unfold strong_type.write_value. by rewrite Hv. Qed.

(** Reading the object at [this] through [get()]. *)
Lemma get_read_value σ this v :
  σ !! this = Some (strong_type.construct v) →
  strong_type.bind (strong_type.get this) strong_type.read_value σ
  = Some (v, σ).
Proof.
  intros Hv. unfold strong_type.bind, strong_type.get, strong_type.ret.
  by apply read_value_lookup.
Qed.

Lemma apply_binary_lookup {A} (op : value_t → value_t → option A)
    σ this other a b :
  σ !! this = Some (strong_type.construct a) →
  σ !! other = Some (strong_type.construct b) →
  strong_type.apply_binary op this other σ = (c ← op a b; Some (c, σ)).
Proof.
  intros Ha Hb.
  unfold strong_type.apply_binary, strong_type.bind, strong_type.get,
    strong_type.get_const, strong_type.ret, strong_type.lift.
  rewrite (read_value_lookup σ _ a), (read_value_lookup σ _ b) by done.
  by destruct (op a b).
Qed.

(** A binary operator that wraps its result into a new [derived_t]. *)
Lemma construct_binary_lookup (op : value_t → value_t → option value_t)
    σ this other a b :
  σ !! this = Some (strong_type.construct a) →
  σ !! other = Some (strong_type.construct b) →
  strong_type.bind (strong_type.apply_binary op this other)
    (λ c, strong_type.ret (strong_type.construct c)) σ
  = (c ← op a b; Some (strong_type.construct c, σ)).
Proof.
  intros Ha Hb. unfold strong_type.bind.
  rewrite (apply_binary_lookup op σ this other a b) by done.
  by destruct (op a b).
Qed.

Lemma increment_through_lookup σ r v :
  σ !! target r = Some (strong_type.construct v) →
  strong_type.increment_through r σ
  = (v' ← v_increment v;
     Some (tt, <[target r := strong_type.construct v']> σ)).
Proof.
  intros Hv. unfold strong_type.increment_through, strong_type.bind,
    strong_type.lift.
  rewrite (read_value_lookup σ r v) by done.
  destruct (v_increment v) as [v'|]; [|done]. simpl.
  by apply write_value_lookup with v.
Qed.

Lemma decrement_through_lookup σ r v :
  σ !! target r = Some (strong_type.construct v) →
  strong_type.decrement_through r σ
  = (v' ← v_decrement v;
     Some (tt, <[target r := strong_type.construct v']> σ)).
Proof.
  intros Hv. unfold strong_type.decrement_through, strong_type.bind,
    strong_type.lift.
  rewrite (read_value_lookup σ r v) by done.
  destruct (v_decrement v) as [v'|]; [|done]. simpl.
  by apply write_value_lookup with v.
Qed.

(** C9.  Constructing a strong type from [v] and calling [get()] yields
    [v]: the object constructed at [this] holds [v], each of the four
    overloads of [get()] returns a reference to the member of that object,
    reading through it gives [v], and neither the call nor the read
    changes any object. *)
Theorem construct_get_round_trip v this σ :
  let σ' := <[this := strong_type.construct v]> σ in
  strong_type.value (strong_type.construct v) = v
  ∧ Forall (λ accessor : loc → strong_type.M value_t value_ref,
              ∃ r, accessor this σ' = Some (r, σ')
                   ∧ target r = this
                   ∧ strong_type.read_value r σ' = Some (v, σ')
                   ∧ strong_type.bind (accessor this) strong_type.read_value σ'
                     = Some (v, σ'))
      [strong_type.get; strong_type.get_const;
       strong_type.get_rvalue; strong_type.get_const_rvalue]
  ∧ ∀ (accessor : loc → strong_type.M value_t value_ref) (τ : gmap loc _),
      accessor ∈ [strong_type.get; strong_type.get_const;
                  strong_type.get_rvalue; strong_type.get_const_rvalue] →
      ∃ r, accessor this τ = Some (r, τ).
Proof.
  intros σ'. split; [done|]. split.
  - assert (σ' !! this = Some (strong_type.construct v)) as Hv
      by apply lookup_insert_eq.
    repeat constructor; eexists; (split; [reflexivity|]);
      (split; [reflexivity|]); split;
      by (unfold strong_type.bind; simpl; apply read_value_lookup).
  - intros accessor τ Hin.
    repeat (apply elem_of_cons in Hin as [->|Hin]); [by eexists..|].
    by apply elem_of_nil in Hin.
Qed.

(** C4.  With the [increment] skill and for every held value [v]:
    post-increment returns a [derived_t] holding [v] and leaves the
    operand holding the incremented value; pre-increment stores the
    incremented value in the operand itself and returns a reference to
    that operand, so that [get()] through either shows the incremented
    value at once.  Pre- and post-decrement do the same with the
    decremented value under the [decrement] skill.  Where [value_t] gives
    the increment of [v] no result, neither do the operators. *)
Theorem increment_decrement_in_place this v σ :
  σ !! this = Some (strong_type.construct v) →
  let after v' := <[this := strong_type.construct v']> σ in
  (∀ e : requires_clause skills op_post_increment = true,
      strong_type.operator_post_increment skills e this σ
      = (v' ← v_increment v; Some (strong_type.construct v, after v')))
  ∧ (∀ e : requires_clause skills op_pre_increment = true,
        strong_type.operator_pre_increment skills e this σ
        = (v' ← v_increment v; Some (this, after v')))
  ∧ (∀ e : requires_clause skills op_post_decrement = true,
        strong_type.operator_post_decrement skills e this σ
        = (v' ← v_decrement v; Some (strong_type.construct v, after v')))
  ∧ (∀ e : requires_clause skills op_pre_decrement = true,
        strong_type.operator_pre_decrement skills e this σ
        = (v' ← v_decrement v; Some (this, after v')))
  ∧ (∀ v', strong_type.bind (strong_type.get this) strong_type.read_value
             (after v') = Some (v', after v'))
  ∧ (∀ v' other, other ≠ this → after v' !! other = σ !! other).
Proof.
  intros Hv after. split_and!; [intros e..| |].
  - unfold strong_type.operator_post_increment, strong_type.bind,
      strong_type.get, strong_type.ret.
    rewrite (read_value_lookup σ _ v), (increment_through_lookup σ _ v) by done.
    by destruct (v_increment v).
  - unfold strong_type.operator_pre_increment, strong_type.bind,
      strong_type.get, strong_type.ret.
    rewrite (increment_through_lookup σ _ v) by done.
    by destruct (v_increment v).
  - unfold strong_type.operator_post_decrement, strong_type.bind,
      strong_type.get, strong_type.ret.
    rewrite (read_value_lookup σ _ v), (decrement_through_lookup σ _ v) by done.
    by destruct (v_decrement v).
  - unfold strong_type.operator_pre_decrement, strong_type.bind,
      strong_type.get, strong_type.ret.
    rewrite (decrement_through_lookup σ _ v) by done.
    by destruct (v_decrement v).
  - intros v'. apply get_read_value, lookup_insert_eq.
  - intros v' other Hne. by apply lookup_insert_ne.
Qed.

(** C6.  Every enabled binary operator reads the values held by its two
    operands, applies the operator of [value_t] to them and returns the
    result in a newly constructed [derived_t] (as a [bool] for [&&] and
    [||]); the objects in memory, the two operands among them, are the
    same after the call.  This covers [+ - * / % & | ^], [<<] and [>>] in
    both forms, [&&] and [||]. *)
Theorem binary_operators_apply_underlying this other a b σ :
  σ !! this = Some (strong_type.construct a) →
  σ !! other = Some (strong_type.construct b) →
  let constructed (c : option value_t) :=
    x ← c; Some (strong_type.construct x, σ) in
  let returned (c : option bool) := x ← c; Some (x, σ) in
  (∀ e, strong_type.operator_plus skills e this other σ
        = constructed (v_plus a b))
  ∧ (∀ e, strong_type.operator_minus skills e this other σ
          = constructed (v_minus a b))
  ∧ (∀ e, strong_type.operator_times skills e this other σ
          = constructed (v_times a b))
  ∧ (∀ e, strong_type.operator_divides skills e this other σ
          = constructed (v_divides a b))
  ∧ (∀ e, strong_type.operator_modulus skills e this other σ
          = constructed (v_modulus a b))
  ∧ (∀ e, strong_type.operator_bit_and skills e this other σ
          = constructed (v_bit_and a b))
  ∧ (∀ e, strong_type.operator_bit_or skills e this other σ
          = constructed (v_bit_or a b))
  ∧ (∀ e, strong_type.operator_bit_xor skills e this other σ
          = constructed (v_bit_xor a b))
  ∧ (∀ e, strong_type.operator_shift_left skills e this other σ
          = constructed (v_shift_left a b))
  ∧ (∀ e, strong_type.operator_shift_right skills e this other σ
          = constructed (v_shift_right a b))
  ∧ (∀ e shift, strong_type.operator_shift_left_integral skills e this shift σ
                = constructed (v_shift_left_integral a shift))
  ∧ (∀ e shift, strong_type.operator_shift_right_integral skills e this shift σ
                = constructed (v_shift_right_integral a shift))
  ∧ (∀ e, strong_type.operator_logical_and skills e this other σ
          = returned (v_logical_and a b))
  ∧ (∀ e, strong_type.operator_logical_or skills e this other σ
          = returned (v_logical_or a b)).
Proof.
  intros Ha Hb constructed returned.
  split_and!; intros e;
    try (by apply construct_binary_lookup);
    try (by apply apply_binary_lookup).
  - intros shift.
    unfold strong_type.operator_shift_left_integral, strong_type.bind,
      strong_type.get, strong_type.ret, strong_type.lift.
    rewrite (read_value_lookup σ _ a) by done.
    by destruct (v_shift_left_integral a shift).
  - intros shift.
    unfold strong_type.operator_shift_right_integral, strong_type.bind,
      strong_type.get, strong_type.ret, strong_type.lift.
    rewrite (read_value_lookup σ _ a) by done.
    by destruct (v_shift_right_integral a shift).
Qed.

(** C5, as amended.  With the [comparable] skill and for all values [a]
    and [b] held by two objects: [==] is the [==] of [value_t] on the two
    held values and [!=] is its negation; [a == a] is what the [==] of
    [value_t] gives for the held value with itself, so equality of the
    strong type is reflexive where that of [value_t] is, and symmetric
    where that of [value_t] is.  Neither holds for every [value_t]: a
    [double] NaN differs from itself, and the [==] of a class type need
    not be symmetric. *)
Theorem equality_by_underlying_value this rhs a b σ
    (e1 : requires_clause skills op_equal_to = true)
    (e2 : requires_clause skills op_not_equal_to = true) :
  σ !! this = Some (strong_type.construct a) →
  σ !! rhs = Some (strong_type.construct b) →
  strong_type.operator_equal_to skills e1 this rhs σ
  = Some (v_equal_to a b, σ)
  ∧ strong_type.operator_not_equal_to skills e2 this rhs σ
    = Some (negb (v_equal_to a b), σ)
  ∧ strong_type.operator_equal_to skills e1 this this σ
    = Some (v_equal_to a a, σ)
  ∧ ((∀ x : value_t, v_equal_to x x = true) →
     strong_type.operator_equal_to skills e1 this this σ = Some (true, σ))
  ∧ ((∀ x y : value_t, v_equal_to x y = v_equal_to y x) →
     strong_type.operator_equal_to skills e1 this rhs σ = Some (true, σ) →
     strong_type.operator_equal_to skills e1 rhs this σ = Some (true, σ)).
Proof.
  intros Ha Hb.
  assert (∀ e l1 l2 x y,
            σ !! l1 = Some (strong_type.construct x) →
            σ !! l2 = Some (strong_type.construct y) →
            strong_type.operator_equal_to skills e l1 l2 σ
            = Some (v_equal_to x y, σ)) as Heq.
  { intros e l1 l2 x y Hx Hy.
    unfold strong_type.operator_equal_to, strong_type.bind,
      strong_type.get_const, strong_type.ret.
    by rewrite (read_value_lookup σ _ x), (read_value_lookup σ _ y). }
  split_and!.
  - by apply Heq.
  - unfold strong_type.operator_not_equal_to, strong_type.bind.
    by rewrite (Heq _ this rhs a b).
  - by apply Heq.
  - intros Hrefl. by rewrite (Heq _ this this a a), Hrefl.
  - intros Hsym. rewrite (Heq _ this rhs a b), (Heq _ rhs this b a) by done.
    by rewrite (Hsym b a).
Qed.

End strong_type_properties.

(* --------------------------------------------------------------------- *)
(** *** The operators at [unsigned int] and at [double]                   *)
(* --------------------------------------------------------------------- *)

Lemma increment_decrement_in_place_witness :
  let skills := strong_type_skill.increment in
  let this : loc := 1%positive in
  let σ : gmap loc (strong_type.object Z) :=
    {[ this := strong_type.construct 4294967295 ]} in
  σ !! this = Some (strong_type.construct 4294967295)
  ∧ strong_type.operator_post_increment (ops := unsigned_int_operators)
      skills eq_refl this σ
    = Some (strong_type.construct 4294967295,
            <[this := strong_type.construct 0]> σ)
  ∧ strong_type.operator_pre_increment (ops := unsigned_int_operators)
      skills eq_refl this σ
    = Some (this, <[this := strong_type.construct 0]> σ).
Proof.
  intros skills this σ.
  assert (σ !! this = Some (strong_type.construct 4294967295)) as Hv
    by apply lookup_singleton_eq.
  split; [exact Hv|].
  destruct (increment_decrement_in_place (ops := unsigned_int_operators)
              skills this 4294967295 σ Hv)
    as (Hpost & Hpre & _).
  split; [exact (Hpost eq_refl)|exact (Hpre eq_refl)].
Defined.

Lemma binary_operators_apply_underlying_witness :
  let skills := Z.lor strong_type_skill.additive strong_type_skill.divide in
  let this : loc := 1%positive in
  let other : loc := 2%positive in
  let σ : gmap loc (strong_type.object Z) :=
    {[ this := strong_type.construct 4294967295;
       other := strong_type.construct 2 ]} in
  σ !! this = Some (strong_type.construct 4294967295)
  ∧ σ !! other = Some (strong_type.construct 2)
  ∧ strong_type.operator_plus (ops := unsigned_int_operators)
      skills eq_refl this other σ
    = Some (strong_type.construct 1, σ)
  ∧ strong_type.operator_divides (ops := unsigned_int_operators)
      skills eq_refl this other σ
    = Some (strong_type.construct 2147483647, σ).
Proof.
  intros skills this other σ.
  assert (σ !! this = Some (strong_type.construct 4294967295)) as Ha
    by (by apply lookup_insert_eq).
  assert (σ !! other = Some (strong_type.construct 2)) as Hb.
  { unfold σ. rewrite lookup_insert_ne by done. apply lookup_singleton_eq. }
  split; [exact Ha|]. split; [exact Hb|].
  destruct (binary_operators_apply_underlying (ops := unsigned_int_operators)
              skills this other 4294967295 2 σ Ha Hb)
    as (Hplus & _ & _ & Hdiv & _).
  split; [exact (Hplus eq_refl)|exact (Hdiv eq_refl)].
Defined.

Lemma equality_by_underlying_value_witness :
  let skills := strong_type_skill.comparable in
  let this : loc := 1%positive in
  let rhs : loc := 2%positive in
  let σ : gmap loc (strong_type.object Z) :=
    {[ this := strong_type.construct 7; rhs := strong_type.construct 7 ]} in
  σ !! this = Some (strong_type.construct 7)
  ∧ σ !! rhs = Some (strong_type.construct 7)
  ∧ strong_type.operator_equal_to (ops := unsigned_int_operators)
      skills eq_refl this rhs σ = Some (true, σ)
  ∧ strong_type.operator_not_equal_to (ops := unsigned_int_operators)
      skills eq_refl this rhs σ = Some (false, σ)
  ∧ strong_type.operator_equal_to (ops := unsigned_int_operators)
      skills eq_refl this this σ = Some (true, σ)
  ∧ strong_type.operator_equal_to (ops := unsigned_int_operators)
      skills eq_refl rhs this σ = Some (true, σ).
Proof.
  intros skills this rhs σ.
  assert (σ !! this = Some (strong_type.construct 7)) as Ha
    by (by apply lookup_insert_eq).
  assert (σ !! rhs = Some (strong_type.construct 7)) as Hb.
  { unfold σ. rewrite lookup_insert_ne by done. apply lookup_singleton_eq. }
  split; [exact Ha|]. split; [exact Hb|].
  destruct (equality_by_underlying_value (ops := unsigned_int_operators)
              skills this rhs 7 7 σ eq_refl eq_refl Ha Hb)
    as (Heq & Hne & _ & Hrefl & Hsym).
  split; [exact Heq|]. split; [exact Hne|]. split.
  - apply Hrefl. intros x. apply Z.eqb_refl.
  - apply Hsym; [|exact Heq]. intros x y. apply Z.eqb_sym.
Defined.

(** Equality of a strong type is neither reflexive nor symmetric for
    every underlying type: a [strong_type<double, ...>] with the
    [comparable] skill that holds a NaN does not compare equal to itself,
    and for two [strong_type<approx, ...>] values [a == b] holds while
    [b == a] does not. *)
Lemma equality_not_reflexive_nor_symmetric :
  let this : loc := 1%positive in
  let rhs : loc := 2%positive in
  let σ : gmap loc (strong_type.object float) :=
    {[ this := strong_type.construct PrimFloat.nan ]} in
  let τ : gmap loc (strong_type.object (Z * Z)) :=
    {[ this := strong_type.construct (0, 5);
       rhs := strong_type.construct (3, 1) ]} in
  (∃ e : requires_clause strong_type_skill.comparable op_equal_to = true,
      σ !! this = Some (strong_type.construct PrimFloat.nan)
      ∧ strong_type.operator_equal_to (ops := double_operators)
          strong_type_skill.comparable e this this σ = Some (false, σ))
  ∧ ¬ (∀ (value_t : Type) (ops : value_operators value_t)
         (skills : strong_type_skill.t)
         (e : requires_clause skills op_equal_to = true)
         (l : loc) (a : value_t) (m : gmap loc (strong_type.object value_t)),
          m !! l = Some (strong_type.construct a) →
          strong_type.operator_equal_to skills e l l m = Some (true, m))
  ∧ (∃ e : requires_clause strong_type_skill.comparable op_equal_to = true,
        τ !! this = Some (strong_type.construct (0, 5))
        ∧ τ !! rhs = Some (strong_type.construct (3, 1))
        ∧ strong_type.operator_equal_to (ops := approx_operators)
            strong_type_skill.comparable e this rhs τ = Some (true, τ)
        ∧ strong_type.operator_equal_to (ops := approx_operators)
            strong_type_skill.comparable e rhs this τ = Some (false, τ))
  ∧ ¬ (∀ (value_t : Type) (ops : value_operators value_t)
         (skills : strong_type_skill.t)
         (e : requires_clause skills op_equal_to = true)
         (l1 l2 : loc) (a b : value_t)
         (m : gmap loc (strong_type.object value_t)),
          m !! l1 = Some (strong_type.construct a) →
          m !! l2 = Some (strong_type.construct b) →
          strong_type.operator_equal_to skills e l1 l2 m = Some (true, m) →
          strong_type.operator_equal_to skills e l2 l1 m = Some (true, m)).
Proof.
  intros this rhs σ τ.
  assert (σ !! this = Some (strong_type.construct PrimFloat.nan)) as Hv
    by apply lookup_singleton_eq.
  assert (strong_type.operator_equal_to (ops := double_operators)
            strong_type_skill.comparable eq_refl this this σ
          = Some (false, σ)) as Hfalse.
  { unfold strong_type.operator_equal_to, strong_type.bind,
      strong_type.get_const, strong_type.ret.
    by rewrite (read_value_lookup σ _ PrimFloat.nan). }
  assert (τ !! this = Some (strong_type.construct (0, 5))) as Ha
    by (by apply lookup_insert_eq).
  assert (τ !! rhs = Some (strong_type.construct (3, 1))) as Hb.
  { unfold τ. rewrite lookup_insert_ne by done. apply lookup_singleton_eq. }
  assert (strong_type.operator_equal_to (ops := approx_operators)
            strong_type_skill.comparable eq_refl this rhs τ
          = Some (true, τ)) as Hab.
  { unfold strong_type.operator_equal_to, strong_type.bind,
      strong_type.get_const, strong_type.ret.
    by rewrite (read_value_lookup τ _ (0, 5)), (read_value_lookup τ _ (3, 1)). }
  assert (strong_type.operator_equal_to (ops := approx_operators)
            strong_type_skill.comparable eq_refl rhs this τ
          = Some (false, τ)) as Hba.
  { unfold strong_type.operator_equal_to, strong_type.bind,
      strong_type.get_const, strong_type.ret.
    by rewrite (read_value_lookup τ _ (3, 1)), (read_value_lookup τ _ (0, 5)). }
  split_and!.
  - by exists eq_refl.
  - intros Hrefl.
    specialize (Hrefl float double_operators strong_type_skill.comparable
                  eq_refl this PrimFloat.nan σ Hv).
    rewrite Hfalse in Hrefl. discriminate Hrefl.
  - by exists eq_refl.
  - intros Hsym.
    specialize (Hsym (Z * Z)%type approx_operators
                  strong_type_skill.comparable eq_refl this rhs (0, 5) (3, 1)
                  τ Ha Hb Hab).
    rewrite Hba in Hsym. discriminate Hsym.
Qed.

(* ===================================================================== *)
(** * Further properties of [fields]                                      *)
(* ===================================================================== *)

(** [contains] tells whether the tag is one of the tags of the list. *)
Theorem contains_iff_member (fs : list field.t) (f : field.t) :
  fields.size fs <= size_t_max →
  (fields.contains fs f = Some true ↔ f ∈ fs)
  ∧ (fields.contains fs f = Some false ↔ f ∉ fs).
Proof.
  intros Hsize. rewrite (contains_elem_of fs f Hsize).
  destruct (decide (f ∈ fs)) as [Hf|Hf].
  - rewrite bool_decide_eq_true_2 by done. split; split; done.
  - rewrite bool_decide_eq_false_2 by done. split; split; done.
Qed.

Lemma contains_iff_member_witness :
  let fs := [field.seq; field.id] in
  fields.size fs <= size_t_max
  ∧ (fields.contains fs field.qual = Some true ↔ field.qual ∈ fs)
  ∧ (fields.contains fs field.qual = Some false ↔ field.qual ∉ fs).
Proof.
  split; [vm_compute; discriminate|].
  apply contains_iff_member. vm_compute; discriminate.
Defined.

(** [index_of] always returns, and what it returns is the sentinel or a
    position of the array at which the tag is found. *)
Theorem index_of_in_range_or_npos (fs : list field.t) (f : field.t) :
  fields.size fs <= size_t_max →
  ∃ idx, fields.index_of fs f = Some idx
         ∧ (idx = fields.npos
            ∨ (0 <= idx < fields.size fs
               ∧ fields.as_array fs !! Z.to_nat idx = Some f)).
Proof.
  intros Hsize.
  destruct (index_of_cases fs f Hsize) as [(_ & i & [Hi _] & -> & Hlt)|[_ ->]].
  - exists (Z.of_nat i). split; [done|]. right.
    rewrite Nat2Z.id. split; [lia|done].
  - exists fields.npos. split; [done|]. by left.
Qed.

Lemma index_of_in_range_or_npos_witness :
  let fs := [field.seq; field.id; field.seq] in
  fields.size fs <= size_t_max
  ∧ ∃ idx, fields.index_of fs field.seq = Some idx
           ∧ (idx = fields.npos
              ∨ (0 <= idx < fields.size fs
                 ∧ fields.as_array fs !! Z.to_nat idx = Some field.seq)).
Proof.
  split; [vm_compute; discriminate|].
  apply index_of_in_range_or_npos. vm_compute; discriminate.
Defined.

(** Two tags that [index_of] sends to the same position of the list are
    the same tag. *)
Theorem index_of_injective (fs : list field.t) (f g : field.t) (idx : Z) :
  fields.size fs <= size_t_max →
  fields.index_of fs f = Some idx →
  fields.index_of fs g = Some idx →
  idx ≠ fields.npos →
  f = g.
Proof.
  intros Hsize Hf Hg Hidx.
  destruct (index_of_cases fs f Hsize) as [(_ & i & [Hlf _] & Hi & _)|[_ Hi]];
    rewrite Hf in Hi; simplify_eq.
  destruct (index_of_cases fs g Hsize) as [(_ & j & [Hlg _] & Hj & _)|[_ Hj]];
    rewrite Hg in Hj; simplify_eq.
  congruence.
Qed.

Lemma index_of_injective_witness :
  let fs := [field.seq; field.id] in
  fields.size fs <= size_t_max
  ∧ fields.index_of fs field.id = Some 1
  ∧ (1 ≠ fields.npos)
  ∧ field.id = field.id.
Proof.
  assert (fields.size [field.seq; field.id] <= size_t_max) as Hsize
    by (vm_compute; discriminate).
  assert (1 ≠ fields.npos) as Hne by (vm_compute; discriminate).
  split_and!; [exact Hsize|reflexivity|exact Hne|].
  exact (index_of_injective [field.seq; field.id] field.id field.id 1
           Hsize eq_refl eq_refl Hne).
Defined.

(** A tag list passes the [static_assert] exactly when [index_of] finds
    every tag at the position where the list declares it. *)
Theorem accepted_iff_index_of_declared_position (fs : list field.t) :
  fields.size fs <= size_t_max →
  fields.accepted fs = true
  ↔ ∀ i f, fs !! i = Some f → fields.index_of fs f = Some (Z.of_nat i).
Proof.
  intros Hsize. unfold fields.accepted.
  rewrite (static_assert_condition_NoDup fs Hsize). split.
  - intros Hnd i f Hi.
    assert (NoDup fs) as Hnd'.
    { destruct (decide (NoDup fs)); [done|].
      by rewrite bool_decide_eq_false_2 in Hnd. }
    apply index_of_present; [done|]. split; [done|].
    intros j Hlt Hj. pose proof (NoDup_lookup fs i j f Hnd' Hi Hj). lia.
  - intros Hpos.
    rewrite bool_decide_eq_true_2; [done|].
    apply NoDup_alt. intros i j f Hi Hj.
    pose proof (Hpos i f Hi) as Hi'. pose proof (Hpos j f Hj) as Hj'.
    rewrite Hi' in Hj'. simplify_eq. lia.
Qed.

Lemma accepted_iff_index_of_declared_position_witness :
  let fs := [field.seq; field.id; field.qual] in
  fields.size fs <= size_t_max
  ∧ (fields.accepted fs = true
     ↔ ∀ i f, fs !! i = Some f → fields.index_of fs f = Some (Z.of_nat i)).
Proof.
  split; [vm_compute; discriminate|].
  apply accepted_iff_index_of_declared_position. vm_compute; discriminate.
Defined.

(* ===================================================================== *)
(** * Further properties of [record]                                      *)
(* ===================================================================== *)

Lemma std_get_load_tuple_nth (ts : list element_type) (i : nat) ref r :
  std_get ts i = Some ref → load ref r = tuple_nth ts i r.
Proof.
  revert i ref r. induction ts as [|t ts IH]; intros i ref r Href; [done|].
  destruct i as [|i]; simpl in Href.
  - by simplify_eq.
  - destruct (std_get ts i) as [ref'|] eqn:E; simplify_eq/=.
    by apply IH.
Qed.

(** Assigning to a position the value it holds changes nothing. *)
Lemma std_get_store_load (ts : list element_type) (i : nat) ref r :
  std_get ts i = Some ref → store ref (load ref r) r = r.
Proof.
  revert i ref r. induction ts as [|t ts IH]; intros i ref r Href; [done|].
  destruct r as [v r]. destruct i as [|i]; simpl in Href.
  - by simplify_eq.
  - destruct (std_get ts i) as [ref'|] eqn:E; simplify_eq/=.
    f_equal. by eapply IH.
Qed.

(** Of two assignments to one position the second one stays. *)
Lemma std_get_store_store (ts : list element_type) (i : nat) ref v w r :
  std_get ts i = Some ref → store ref w (store ref v r) = store ref w r.
Proof.
  revert i ref v w r.
  induction ts as [|t ts IH]; intros i ref v w r Href; [done|].
  destruct i as [|i]; simpl in Href.
  - by simplify_eq.
  - destruct (std_get ts i) as [ref'|] eqn:E; simplify_eq/=.
    f_equal. by eapply IH.
Qed.


Lemma element_at_tuple_nth (ts : list element_type) (i : nat) (r : tuple ts) :
  element_at ts i r = element_as_any ts i (tuple_nth ts i r).
Proof.
  revert i r. induction ts as [|t ts IH]; intros i r; [done|].
  destruct i as [|i]; simpl; [done|]. apply IH.
Qed.

(** What a successful resolution of a tag tells. *)
Lemma get_impl_Some_inv (ts : list element_type) (fs : list field.t)
    (f : field.t) (i : nat) ref :
  fields.size fs <= size_t_max →
  record.static_assert_condition ts fs = true →
  record.get_impl ts fs f = Some (existT i ref) →
  f ∈ fs ∧ first_occurrence fs f i ∧ std_get ts i = Some ref.
Proof.
  intros Hsize Hlen Hget.
  destruct (decide (f ∈ fs)) as [Hf|Hf].
  - destruct (get_impl_present ts fs f Hsize Hlen Hf)
      as (j & ref' & Hj & _ & Href & Hget').
    rewrite Hget' in Hget. simplify_eq.
    match goal with E : existT _ _ = existT _ _ |- _ =>
      apply existT_position_inj in E as <- end.
    done.
  - by rewrite (get_impl_absent ts fs f Hsize Hf) in Hget.
Qed.

(** The access by tag is well-formed exactly for the tags of the tag
    list; for every other tag its [static_assert] fails, so neither a read
    nor an assignment exists. *)
Theorem get_impl_well_formed_iff_contained (field_types : list element_type)
    (field_ids : list field.t) (f : field.t) :
  fields.size field_ids <= size_t_max →
  record.static_assert_condition field_types field_ids = true →
  (is_Some (record.get_impl field_types field_ids f) ↔ f ∈ field_ids)
  ∧ (f ∉ field_ids →
     ∀ vals r, record.read field_types field_ids f r = None
               ∧ record.write field_types field_ids f vals r = None).
Proof.
  intros Hsize Hlen. split; [split|].
  - intros [[i ref] Hget].
    by apply (get_impl_Some_inv _ _ _ _ _ Hsize Hlen Hget).
  - intros Hf.
    destruct (get_impl_present field_types field_ids f Hsize Hlen Hf)
      as (i & ref & _ & _ & _ & ->).
    by eexists.
  - intros Hf vals r. unfold record.read, record.write.
    by rewrite (get_impl_absent field_types field_ids f Hsize Hf).
Qed.

Lemma get_impl_well_formed_iff_contained_witness :
  let field_types := [std_string; int_] in
  let field_ids := [field.seq; field.offset] in
  fields.size field_ids <= size_t_max
  ∧ record.static_assert_condition field_types field_ids = true
  ∧ (is_Some (record.get_impl field_types field_ids field.qual)
     ↔ field.qual ∈ field_ids).
Proof.
  intros field_types field_ids.
  assert (fields.size field_ids <= size_t_max) as Hsize
    by (vm_compute; discriminate).
  split_and!; [exact Hsize|reflexivity|].
  exact (proj1 (get_impl_well_formed_iff_contained field_types field_ids
                  field.qual Hsize eq_refl)).
Defined.

(** An assignment to one field leaves every other field of the record as
    it was. *)
Theorem write_leaves_other_fields (field_types : list element_type)
    (field_ids : list field.t) (f g : field.t)
    (vals : ∀ i, tuple_element i field_types) (r r' : tuple field_types) :
  fields.size field_ids <= size_t_max →
  record.static_assert_condition field_types field_ids = true →
  record.write field_types field_ids f vals r = Some r' →
  g ≠ f →
  record.read field_types field_ids g r'
  = record.read field_types field_ids g r.
Proof.
  intros Hsize Hlen Hwrite Hne. unfold record.write in Hwrite.
  destruct (record.get_impl field_types field_ids f) as [[i ref]|] eqn:Hf;
    [|done].
  simpl in Hwrite. simplify_eq.
  destruct (get_impl_Some_inv _ _ _ _ _ Hsize Hlen Hf) as (_ & [Hi _] & Href).
  unfold record.read.
  destruct (record.get_impl field_types field_ids g) as [[j refg]|] eqn:Hg;
    [|done].
  destruct (get_impl_Some_inv _ _ _ _ _ Hsize Hlen Hg) as (_ & [Hj _] & Hrefg).
  simpl. do 2 f_equal.
  apply (std_get_load_store_other field_types i j); [|done..].
  intros ->. congruence.
Qed.

Lemma write_leaves_other_fields_witness :
  let field_types := [std_string; int_] in
  let field_ids := [field.seq; field.offset] in
  let vals := λ i, tuple_nth field_types i ([Byte.x41], (7, tt)) in
  let r := tuple_default field_types in
  fields.size field_ids <= size_t_max
  ∧ record.static_assert_condition field_types field_ids = true
  ∧ record.write field_types field_ids field.offset vals r = Some ([], (7, tt))
  ∧ field.seq ≠ field.offset
  ∧ record.read field_types field_ids field.seq ([], (7, tt))
    = record.read field_types field_ids field.seq r.
Proof.
  intros field_types field_ids vals r.
  assert (fields.size field_ids <= size_t_max) as Hsize
    by (vm_compute; discriminate).
  assert (field.seq ≠ field.offset) as Hne by discriminate.
  split_and!; [exact Hsize|reflexivity|reflexivity|exact Hne|].
  exact (write_leaves_other_fields field_types field_ids field.offset field.seq
           vals r ([], (7, tt)) Hsize eq_refl eq_refl Hne).
Defined.

(** Of two assignments to the same field only the second one shows: the
    record is the one that the second assignment alone produces. *)
Theorem write_twice_keeps_last (field_types : list element_type)
    (field_ids : list field.t) (f : field.t)
    (vals vals' : ∀ i, tuple_element i field_types)
    (r r1 : tuple field_types) :
  fields.size field_ids <= size_t_max →
  record.static_assert_condition field_types field_ids = true →
  record.write field_types field_ids f vals r = Some r1 →
  record.write field_types field_ids f vals' r1
  = record.write field_types field_ids f vals' r.
Proof.
  intros Hsize Hlen Hwrite. unfold record.write in *.
  destruct (record.get_impl field_types field_ids f) as [[i ref]|] eqn:Hf;
    [|done].
  destruct (get_impl_Some_inv _ _ _ _ _ Hsize Hlen Hf) as (_ & _ & Href).
  simpl in *. simplify_eq. f_equal.
  by apply (std_get_store_store field_types i).
Qed.

Lemma write_twice_keeps_last_witness :
  let field_types := [std_string; int_] in
  let field_ids := [field.seq; field.offset] in
  let vals := λ i, tuple_nth field_types i ([Byte.x41], (7, tt)) in
  let vals' := λ i, tuple_nth field_types i ([Byte.x43], (9, tt)) in
  let r := tuple_default field_types in
  fields.size field_ids <= size_t_max
  ∧ record.static_assert_condition field_types field_ids = true
  ∧ record.write field_types field_ids field.offset vals r = Some ([], (7, tt))
  ∧ record.write field_types field_ids field.offset vals' ([], (7, tt))
    = record.write field_types field_ids field.offset vals' r.
Proof.
  intros field_types field_ids vals vals' r.
  assert (fields.size field_ids <= size_t_max) as Hsize
    by (vm_compute; discriminate).
  split_and!; [exact Hsize|reflexivity|reflexivity|].
  exact (write_twice_keeps_last field_types field_ids field.offset vals vals'
           r ([], (7, tt)) Hsize eq_refl eq_refl).
Defined.



(** Assigning to a field of the tag list the value the record holds there
    gives the record back. *)
Theorem write_held_value_is_identity (field_types : list element_type)
    (field_ids : list field.t) (f : field.t) (r : tuple field_types) :
  fields.size field_ids <= size_t_max →
  record.static_assert_condition field_types field_ids = true →
  f ∈ field_ids →
  record.write field_types field_ids f (λ i, tuple_nth field_types i r) r
  = Some r.
Proof.
  intros Hsize Hlen Hf. unfold record.write.
  destruct (get_impl_present field_types field_ids f Hsize Hlen Hf)
    as (i & ref & _ & _ & Href & ->).
  simpl. f_equal.
  rewrite <-(std_get_load_tuple_nth field_types i ref r Href).
  by apply (std_get_store_load field_types i).
Qed.

Lemma write_held_value_is_identity_witness :
  let field_types := [std_string; int_] in
  let field_ids := [field.seq; field.offset] in
  let r : tuple field_types := ([Byte.x41], (7, tt)) in
  fields.size field_ids <= size_t_max
  ∧ record.static_assert_condition field_types field_ids = true
  ∧ field.offset ∈ field_ids
  ∧ record.write field_types field_ids field.offset
      (λ i, tuple_nth field_types i r) r = Some r.
Proof.
  intros field_types field_ids r.
  assert (fields.size field_ids <= size_t_max) as Hsize
    by (vm_compute; discriminate).
  assert (field.offset ∈ field_ids) as Hf
    by (apply list_elem_of_further, list_elem_of_here).
  split_and!; [exact Hsize|reflexivity|exact Hf|].
  exact (write_held_value_is_identity field_types field_ids field.offset r
           Hsize eq_refl Hf).
Defined.

(** Where the member [clear()] of every element type that has one leaves
    the value-initialised value, as the standard containers do, [clear()]
    turns any record into the default-constructed one, and a second
    [clear()] changes nothing. *)
Theorem clear_yields_default_record (field_types : list element_type)
    (r : tuple field_types) :
  Forall (λ t, ∀ c v, member_clear t = Some c → c v = value_initialized t)
    field_types →
  record.clear field_types r = tuple_default field_types
  ∧ record.clear field_types (record.clear field_types r)
    = record.clear field_types r.
Proof.
  intros Hts.
  assert (∀ r', record.clear field_types r' = tuple_default field_types)
    as Hclear.
  { unfold record.clear. clear r.
    induction Hts as [|t ts Ht Hts IH]; intros r'; [by destruct r'|].
    destruct r' as [v r']. simpl. f_equal; [|apply IH].
    destruct (member_clear t) as [c|] eqn:Hc.
    - rewrite (clear_element_member_clear t c v Hc). by apply Ht.
    - by apply clear_element_no_member. }
  by rewrite !Hclear.
Qed.

Lemma clear_yields_default_record_witness :
  let field_types := [std_string; std_vector_int; int_] in
  let r : tuple field_types := ([Byte.x41], ([30; 31], (7, tt))) in
  Forall (λ t, ∀ c v, member_clear t = Some c → c v = value_initialized t)
    field_types
  ∧ record.clear field_types r = tuple_default field_types
  ∧ record.clear field_types (record.clear field_types r)
    = record.clear field_types r.
Proof.
  intros field_types r.
  assert (Forall (λ t, ∀ c v, member_clear t = Some c
                              → c v = value_initialized t) field_types) as Hts.
  { repeat constructor; intros c v Hc; simpl in Hc; by simplify_eq. }
  split; [exact Hts|].
  exact (clear_yields_default_record field_types r Hts).
Defined.

(** Without that condition a second [clear()] can change the record. *)
Example clear_twice_counter :
  record.clear [counter] (record.clear [counter] ((3, 0), tt))
  ≠ record.clear [counter] ((3, 0), tt).
Proof. discriminate. Qed.

(** [clear()] and the access by tag: after [clear()] the field of a tag
    holds the reset, as documented for [clear()], of what it held
    before. *)
Theorem clear_then_read_by_tag (field_types : list element_type)
    (field_ids : list field.t) (f : field.t) (i : nat) ref
    (r : tuple field_types) :
  fields.size field_ids <= size_t_max →
  record.static_assert_condition field_types field_ids = true →
  record.get_impl field_types field_ids f = Some (existT i ref) →
  element_as_any field_types i (load ref (record.clear field_types r))
  = reset_as_documented <$> element_as_any field_types i (load ref r).
Proof.
  intros Hsize Hlen Hget.
  destruct (get_impl_Some_inv _ _ _ _ _ Hsize Hlen Hget) as (_ & _ & Href).
  rewrite !(std_get_load_tuple_nth field_types i ref _ Href).
  rewrite <-!element_at_tuple_nth. unfold record.clear.
  rewrite element_at_expander.
  destruct (element_at field_types i r) as [[t v]|]; [|done].
  cbn [fmap option_fmap option_map projT1 projT2].
  by rewrite clear_element_as_documented.
Qed.

Lemma clear_then_read_by_tag_witness :
  let field_types := [std_vector_int; int_] in
  let field_ids := [field.qual; field.offset] in
  let r : tuple field_types := ([30; 31; 32], (5, tt)) in
  fields.size field_ids <= size_t_max
  ∧ record.static_assert_condition field_types field_ids = true
  ∧ ∃ ref, record.get_impl field_types field_ids field.qual
           = Some (existT 0%nat ref)
           ∧ element_as_any field_types 0
               (load ref (record.clear field_types r))
             = Some (existT std_vector_int []).
Proof.
  intros field_types field_ids r.
  assert (fields.size field_ids <= size_t_max) as Hsize
    by (vm_compute; discriminate).
  split_and!; [exact Hsize|reflexivity|].
  eexists. split; [reflexivity|].
  exact (clear_then_read_by_tag field_types field_ids field.qual 0 _ r
           Hsize eq_refl eq_refl).
Defined.

(* ===================================================================== *)
(** * Further properties of [strong_type]                                 *)
(* ===================================================================== *)

Lemma has_single_bit_testbit (skills k : Z) :
  0 <= k → strong_type_skill.has skills (Z.shiftl 1 k) = Z.testbit skills k.
Proof.
  intros Hk. pose proof (has_single_bit skills k Hk) as Hiff.
  destruct (strong_type_skill.has skills (Z.shiftl 1 k)),
    (Z.testbit skills k); try done.
  - symmetry. by apply Hiff.
  - by apply Hiff.
Qed.

(** The composite enumerators enable the operators of their members and
    no others: [additive] gives [+] and [-]; [multiplicative] gives [*],
    [/] and [%]; [bitwise_logic] gives [&], [|], [^] and [~];
    [bitwise_shift] gives both forms of [<<] and of [>>]; [logic] gives
    [&&], [||] and [!]. *)
Theorem composite_skills_enable_their_members (o : operator) :
  (requires_clause strong_type_skill.additive o = true
   ↔ o = op_plus ∨ o = op_minus)
  ∧ (requires_clause strong_type_skill.multiplicative o = true
     ↔ o = op_times ∨ o = op_divides ∨ o = op_modulus)
  ∧ (requires_clause strong_type_skill.bitwise_logic o = true
     ↔ o = op_bit_and ∨ o = op_bit_or ∨ o = op_bit_xor ∨ o = op_bit_not)
  ∧ (requires_clause strong_type_skill.bitwise_shift o = true
     ↔ o = op_shift_left ∨ o = op_shift_left_integral
       ∨ o = op_shift_right ∨ o = op_shift_right_integral)
  ∧ (requires_clause strong_type_skill.logic o = true
     ↔ o = op_logical_and ∨ o = op_logical_or ∨ o = op_logical_not).
Proof.
  split_and!; destruct o; vm_compute; intuition congruence.
Qed.

(** The union of two skill sets enables an operator when one of the two
    does, their intersection when both do, and [none] enables no
    operator. *)
Theorem skill_sets_combine (s1 s2 : strong_type_skill.t) (o : operator) :
  requires_clause (Z.lor s1 s2) o
  = requires_clause s1 o || requires_clause s2 o
  ∧ requires_clause (strong_type_skill.band s1 s2) o
    = requires_clause s1 o && requires_clause s2 o
  ∧ requires_clause strong_type_skill.none o = false.
Proof.
  destruct (required_skill_single_bit o) as (k & Hk & Hskill).
  unfold requires_clause. rewrite Hskill.
  rewrite !has_single_bit_testbit by lia.
  unfold strong_type_skill.band, strong_type_skill.none.
  by rewrite Z.lor_spec, Z.land_spec, Z.bits_0.
Qed.

Section strong_type_further_properties.

Context {value_t : Type} {ops : value_operators value_t}.
Variable skills : strong_type_skill.t.

Implicit Types (this : loc) (σ : gmap loc (strong_type.object value_t)).
Implicit Types (v : value_t).

(** The unary operators [~] and [!] and the explicit conversion read the
    held value and change no object: [~] returns the complement that
    [value_t] gives in a new [derived_t], [!] returns the [bool] that
    [value_t] gives, and the conversion returns the held value itself, so
    converting a strong type constructed from [v] gives [v] back. *)
Theorem unary_operators_and_conversion this v σ :
  σ !! this = Some (strong_type.construct v) →
  (∀ e, strong_type.operator_bit_not skills e this σ
        = (c ← v_bit_not v; Some (strong_type.construct c, σ)))
  ∧ (∀ e, strong_type.operator_logical_not skills e this σ
          = (b ← v_logical_not v; Some (b, σ)))
  ∧ (∀ e, strong_type.operator_convert skills e this σ = Some (v, σ)).
Proof.
  intros Hv. split_and!; intros e.
  - unfold strong_type.operator_bit_not, strong_type.bind, strong_type.get,
      strong_type.ret, strong_type.lift.
    rewrite (read_value_lookup σ _ v) by done.
    by destruct (v_bit_not v).
  - unfold strong_type.operator_logical_not, strong_type.bind,
      strong_type.get, strong_type.ret, strong_type.lift.
    rewrite (read_value_lookup σ _ v) by done.
    by destruct (v_logical_not v).
  - unfold strong_type.operator_convert, strong_type.bind,
      strong_type.get_const, strong_type.ret.
    by apply read_value_lookup.
Qed.

(** Where the decrement of [value_t] undoes its increment at the held
    value, [--(++x)] leaves every object as it was and returns a
    reference to [x]; likewise [++(--x)] where the increment undoes the
    decrement. *)
Theorem increment_and_decrement_cancel this v v' σ
    (e1 : requires_clause skills op_pre_increment = true)
    (e2 : requires_clause skills op_pre_decrement = true) :
  σ !! this = Some (strong_type.construct v) →
  (v_increment v = Some v' → v_decrement v' = Some v →
   strong_type.bind (strong_type.operator_pre_increment skills e1 this)
     (strong_type.operator_pre_decrement skills e2) σ
   = Some (this, σ))
  ∧ (v_decrement v = Some v' → v_increment v' = Some v →
     strong_type.bind (strong_type.operator_pre_decrement skills e2 this)
       (strong_type.operator_pre_increment skills e1) σ
     = Some (this, σ)).
Proof.
  intros Hv.
  assert (<[this := strong_type.construct v]>
            (<[this := strong_type.construct v']> σ) = σ) as Hσ.
  { rewrite insert_insert_eq. by apply insert_id. }
  assert (<[this := strong_type.construct v']> σ !! this
          = Some (strong_type.construct v')) as Hv'
    by apply lookup_insert_eq.
  split; intros Hfirst Hsecond.
  - unfold strong_type.bind at 1.
    unfold strong_type.operator_pre_increment at 1.
    unfold strong_type.bind, strong_type.get, strong_type.ret.
    rewrite (increment_through_lookup σ _ v), Hfirst by done. simpl.
    unfold strong_type.operator_pre_decrement, strong_type.bind,
      strong_type.get, strong_type.ret.
    rewrite (decrement_through_lookup _ _ v'), Hsecond by done. simpl.
    by rewrite Hσ.
  - unfold strong_type.bind at 1.
    unfold strong_type.operator_pre_decrement at 1.
    unfold strong_type.bind, strong_type.get, strong_type.ret.
    rewrite (decrement_through_lookup σ _ v), Hfirst by done. simpl.
    unfold strong_type.operator_pre_increment, strong_type.bind,
      strong_type.get, strong_type.ret.
    rewrite (increment_through_lookup _ _ v'), Hsecond by done. simpl.
    by rewrite Hσ.
Qed.

End strong_type_further_properties.

Lemma unary_operators_and_conversion_witness :
  let skills := Z.lor strong_type_skill.bitwise_not strong_type_skill.convert in
  let this : loc := 1%positive in
  let σ : gmap loc (strong_type.object Z) :=
    {[ this := strong_type.construct 5 ]} in
  σ !! this = Some (strong_type.construct 5)
  ∧ strong_type.operator_bit_not (ops := unsigned_int_operators)
      skills eq_refl this σ
    = Some (strong_type.construct 4294967290, σ)
  ∧ strong_type.operator_convert skills eq_refl this σ = Some (5, σ).
Proof.
  intros skills this σ.
  assert (σ !! this = Some (strong_type.construct 5)) as Hv
    by apply lookup_singleton_eq.
  split; [exact Hv|].
  destruct (unary_operators_and_conversion (ops := unsigned_int_operators)
              skills this 5 σ Hv) as (Hnot & _ & Hconvert).
  split; [exact (Hnot eq_refl)|exact (Hconvert eq_refl)].
Defined.

Lemma increment_and_decrement_cancel_witness :
  let skills := Z.lor strong_type_skill.increment strong_type_skill.decrement in
  let this : loc := 1%positive in
  let σ : gmap loc (strong_type.object Z) :=
    {[ this := strong_type.construct 4294967295 ]} in
  σ !! this = Some (strong_type.construct 4294967295)
  ∧ v_increment (value_operators := unsigned_int_operators) 4294967295 = Some 0
  ∧ v_decrement (value_operators := unsigned_int_operators) 0
    = Some 4294967295
  ∧ strong_type.bind
      (strong_type.operator_pre_increment (ops := unsigned_int_operators)
         skills eq_refl this)
      (strong_type.operator_pre_decrement (ops := unsigned_int_operators)
         skills eq_refl) σ
    = Some (this, σ).
Proof.
  intros skills this σ.
  assert (σ !! this = Some (strong_type.construct 4294967295)) as Hv
    by apply lookup_singleton_eq.
  split_and!; [exact Hv|reflexivity|reflexivity|].
  exact (proj1 (increment_and_decrement_cancel (ops := unsigned_int_operators)
                  skills this 4294967295 0 σ eq_refl eq_refl Hv)
           eq_refl eq_refl).
Defined.
